(** * interface: declared interfaces, verification and enforcement bases

    A shallow embedding of [interface/interface.py] and
    [interface/functional.py].  Python objects are modelled by records,
    dictionaries by insertion-ordered association lists, raised exceptions
    by the [Raise] constructor of [result], and the two pieces of mutable
    global state (object allocation and the private [_memo] table of
    [implements]) by explicit state passing. *)

From Stdlib Require Import String Ascii.
From stdpp Require Import base option list strings gmap sets sorting.

Local Open Scope string_scope.
Set Warnings "-register-all,-clear-no-such-hyp".

(** The identity of an object as a set element: interface classes, other
    classes and other hashable objects never coincide. *)
Abbreviation objkey := (positive + (positive + positive))%type.

(** ** Exceptions and results *)

(** The exception classes the module raises or lets through.
    [InvalidImplementation] derives from [TypeError]. *)
Inductive exn :=
| TypeError (msg : string)
| InvalidImplementation (msg : string)
| AttributeError (msg : string)
| ValueError (msg : string).

(** [isinstance(e, TypeError)] *)
Definition is_TypeError (e : exn) : bool :=
  match e with
  | TypeError _ | InvalidImplementation _ => true
  | AttributeError _ | ValueError _ => false
  end.

(** [isinstance(e, InvalidImplementation)] *)
Definition is_InvalidImplementation (e : exn) : bool :=
  match e with
  | InvalidImplementation _ => true
  | _ => false
  end.

(** [str(e)] *)
Definition exn_str (e : exn) : string :=
  match e with
  | TypeError m | InvalidImplementation m | AttributeError m
  | ValueError m => m
  end.

Inductive result (A : Type) :=
| Ok (a : A)
| Raise (e : exn).
Arguments Ok {A} a.
Arguments Raise {A} e.

Definition result_bind {A B} (r : result A) (f : A → result B) : result B :=
  match r with
  | Ok a => f a
  | Raise e => Raise e
  end.

(** ** Strings *)

Definition nl : string := String "010" EmptyString.

(** [sep.join(parts)] *)
Definition join (sep : string) (parts : list string) : string :=
  String.concat sep parts.

(** [sorted(xs, key=key)] on string keys: a stable insertion sort. *)
Section sorted.
Context {A : Type} (key : A → string).

Fixpoint insert_sorted (x : A) (l : list A) : list A :=
  match l with
  | [] => [x]
  | y :: l' =>
      if String.leb (key x) (key y) then x :: y :: l'
      else y :: insert_sorted x l'
  end.

Definition sorted_by (l : list A) : list A := foldr insert_sorted [] l.
End sorted.

Definition sorted : list string → list string := sorted_by id.

(** ** Dictionaries

    A Python [dict] keeps its keys unique and iterates in insertion
    order; assigning to an existing key keeps its position. *)
Definition dict (V : Type) : Type := list (string * V).

Section dict.
Context {V : Type}.

(** [d[k]], with [None] for [KeyError] *)
Fixpoint dict_get (k : string) (d : dict V) : option V :=
  match d with
  | [] => None
  | (k', v) :: d' => if decide (k = k') then Some v else dict_get k d'
  end.

(** [d[k] = v] *)
Fixpoint dict_set (k : string) (v : V) (d : dict V) : dict V :=
  match d with
  | [] => [(k, v)]
  | (k', v') :: d' =>
      if decide (k = k') then (k, v) :: d' else (k', v') :: dict_set k v d'
  end.

Definition keys (d : dict V) : list string := d.*1.

(** [{k: v for k, v in items if keep(k, v)}] *)
Definition dict_comp (keep : string → V → bool) (items : list (string * V))
  : dict V :=
  foldl (λ acc kv, if keep kv.1 kv.2 then dict_set kv.1 kv.2 acc else acc)
        [] items.
End dict.

(** ** functional.py *)

Definition complement {A} (f : A → bool) : A → bool := λ x, negb (f x).

Definition valfilter {V} (f : V → bool) (d : dict V) : dict V :=
  dict_comp (λ _ v, f v) d.

(** Modelled from the spec: [keyfilter] is imported by [interface.py] from
    [functional.py] but its definition is not in the sources at hand.  It
    is the key counterpart of [valfilter]: the entries of [d] whose key
    satisfies [f] ("keys exclude a fixed whitelist"). *)
Definition keyfilter {V} (f : string → bool) (d : dict V) : dict V :=
  dict_comp (λ k _, f k) d.

(** ** The collaborators of the engine

    [typed_signature.py], [typecheck.py] and [default.py] are external to
    the engine: the signature normaliser, the compatibility predicate and
    the marker for default implementations enter as an interface. *)
Class Runtime := {
  (** objects found in class bodies *)
  value : Type;
  (** the member kinds: the type objects stored in [TypedSignature.type] *)
  kind : Type;
  (** call shapes: [inspect] signatures *)
  signature : Type;
  (** [TypedSignature(v)]: the pair [(.type, .signature)], or the raised
      exception *)
  TypedSignature : value → result (kind * signature);
  (** [str(sig)] of a [TypedSignature] *)
  sig_str : kind * signature → string;
  (** [getname(type(v))] *)
  type_name : value → string;
  (** [getname(k)] of a kind *)
  kind_name : kind → string;
  (** [isinstance(v, default)]: the wrapped [.implementation] *)
  as_default : value → option value;
  (** [issubclass] on kinds *)
  issubclass : kind → kind → bool;
  (** [typecheck.compatible] *)
  compatible : signature → signature → bool;
  (** [repr] of a string *)
  repr : string → string;
  (** a [str] object as a class-body value *)
  str_value : string → value;
  (** [vars(object)]: the namespace of the root of every ancestry chain *)
  object_vars : dict value;
}.

Section engine.
Context `{R : Runtime}.

(** A [TypedSignature] object: its [.type] and its [.signature]. *)
Definition typed_signature : Type := kind * signature.

(** ** Interface definitions *)

(** A class created by [InterfaceMeta]: its identity, its [__name__], the
    class body it was made from and the two attributes that
    [InterfaceMeta.__new__] stores on it.  [i_vars] is [vars(cls)] without
    these two. *)
Record Interface := {
  i_id : positive;
  i_name : string;
  i_vars : dict value;
  _signatures : dict typed_signature;
  _defaults : dict value;
}.

Definition CLASS_ATTRIBUTE_WHITELIST : list string :=
  ["__doc__"; "__module__"; "__name__"; "__qualname__"; "__weakref__"].

Definition is_interface_field_name : string → bool :=
  complement (λ k, bool_decide (k ∈ CLASS_ATTRIBUTE_WHITELIST)).

(** ** Types offered for verification *)

(** A class object.  [ty_vars] is [vars(t)] without the bookkeeping
    attribute [_interfaces], which [ty_interfaces] holds when the class
    has one of its own (the elements of the frozenset, in iteration
    order).  [ty_ancestors] is [t.mro()] without [t] itself. *)
Inductive pytype := PyType {
  ty_id : positive;
  ty_name : string;
  ty_vars : dict value;
  ty_implements_meta : bool;
  ty_interfaces : option (list Interface);
  ty_ancestors : list pytype;
}.

Definition mro (t : pytype) : list pytype := t :: ty_ancestors t.

(** The builtin [object]. *)
Definition object_ : pytype :=
  {| ty_id := 1; ty_name := "object"; ty_vars := object_vars;
     ty_implements_meta := false; ty_interfaces := None;
     ty_ancestors := [] |}.

(** [static_get_type_attr(t, name)]; [None] stands for the
    [AttributeError], which the only caller catches. *)
Fixpoint static_lookup (name : string) (types : list pytype)
  : option value :=
  match types with
  | [] => None
  | type_ :: rest =>
      match dict_get name (ty_vars type_) with
      | Some v => Some v
      | None => static_lookup name rest
      end
  end.

Definition static_get_type_attr (t : pytype) (name : string)
  : option value :=
  static_lookup name (mro t).

(** ** InterfaceMeta *)

Definition parse_errmsg (iface_name fieldname attrtype : string) : string :=
  "Couldn't parse signature for field " ++ iface_name ++ "." ++ fieldname
    ++ " of type " ++ attrtype ++ ".".

(** The loop of [InterfaceMeta.__new__] over the filtered class body. *)
Fixpoint collect_fields (name : string) (items : list (string * value))
    (signatures : dict typed_signature) (defaults : dict value)
  : result (dict typed_signature * dict value) :=
  match items with
  | [] => Ok (signatures, defaults)
  | (k, v) :: rest =>
      match TypedSignature v with
      | Raise e =>
          if is_TypeError e
          then Raise (TypeError (parse_errmsg name k (type_name v)))
          else Raise e
      | Ok sig =>
          let signatures := dict_set k sig signatures in
          let defaults :=
            match as_default v with
            | Some _ => dict_set k v defaults
            | None => defaults
            end in
          collect_fields name rest signatures defaults
      end
  end.

(** [_diff_signatures]: the loop over [self._signatures.items()]. *)
Fixpoint diff_loop (type_ : pytype) (items : list (string * typed_signature))
    (missing : list string) (mistyped : dict kind)
    (mismatched : dict typed_signature)
  : result (list string * dict kind * dict typed_signature) :=
  match items with
  | [] => Ok (missing, mistyped, mismatched)
  | (name, iface_sig) :: rest =>
      match static_get_type_attr type_ name with
      | None => diff_loop type_ rest (missing ++ [name]) mistyped mismatched
      | Some f =>
          match TypedSignature f with
          | Raise e => Raise e
          | Ok impl_sig =>
              let mistyped :=
                if issubclass impl_sig.1 iface_sig.1 then mistyped
                else dict_set name impl_sig.1 mistyped in
              let mismatched :=
                if compatible impl_sig.2 iface_sig.2 then mismatched
                else dict_set name impl_sig mismatched in
              diff_loop type_ rest missing mistyped mismatched
          end
      end
  end.

Definition _diff_signatures (self : Interface) (type_ : pytype)
  : result (list string * dict kind * dict typed_signature) :=
  diff_loop type_ (_signatures self) [] [] [].

(** [str(self._signatures[name])]; the names formatted are keys of
    [_signatures], so the lookup finds them. *)
Definition declared_sig_str (self : Interface) (name : string) : string :=
  from_option sig_str "" (dict_get name (_signatures self)).

Definition declared_kind_name (self : Interface) (name : string) : string :=
  from_option (λ s, kind_name s.1) "" (dict_get name (_signatures self)).

Definition _format_missing_methods (self : Interface)
    (missing : list string) : string :=
  join nl (sorted
    ((λ name, "  - " ++ name ++ declared_sig_str self name) <$> missing)).

Definition _format_mismatched_types (self : Interface)
    (mistyped : dict kind) : string :=
  join nl (sorted
    ((λ '(name, bad_type),
       "  - " ++ name ++ ": " ++ repr (kind_name bad_type)
         ++ " is not a subtype of expected type "
         ++ repr (declared_kind_name self name)) <$> mistyped)).

Definition _format_mismatched_methods (self : Interface)
    (mismatched : dict typed_signature) : string :=
  join nl (sorted
    ((λ '(name, bad_sig),
       "  - " ++ name ++ sig_str bad_sig ++ " != " ++ name
         ++ declared_sig_str self name) <$> mismatched)).

Definition is_nil {A} (l : list A) : bool :=
  match l with [] => true | _ => false end.

Definition _invalid_implementation (self : Interface) (t : pytype)
    (missing : list string) (mistyped : dict kind)
    (mismatched : dict typed_signature) : exn :=
  let message :=
    nl ++ "class " ++ ty_name t ++ " failed to implement interface "
       ++ i_name self ++ ":" in
  let message :=
    if is_nil missing then message
    else message ++ nl ++ nl ++ "The following methods of " ++ i_name self
           ++ " were not implemented:" ++ nl
           ++ _format_missing_methods self missing in
  let message :=
    if is_nil mistyped then message
    else message ++ nl ++ nl ++ "The following methods of " ++ i_name self
           ++ " were implemented with incorrect types:" ++ nl
           ++ _format_mismatched_types self mistyped in
  let message :=
    if is_nil mismatched then message
    else message ++ nl ++ nl ++ "The following methods of " ++ i_name self
           ++ " were implemented with invalid signatures:" ++ nl
           ++ _format_mismatched_methods self mismatched in
  InvalidImplementation message.

(** The second loop of [verify]: defaults for the missing names.  A
    stored default that had no [.implementation] would raise
    [AttributeError]. *)
Fixpoint resolve_defaults (self : Interface) (raw_missing : list string)
    (missing : list string) (defaults_to_use : dict value)
  : result (list string * dict value) :=
  match raw_missing with
  | [] => Ok (missing, defaults_to_use)
  | name :: rest =>
      match dict_get name (_defaults self) with
      | Some d =>
          match as_default d with
          | Some implementation =>
              resolve_defaults self rest missing
                (dict_set name implementation defaults_to_use)
          | None => Raise (AttributeError "implementation")
          end
      | None => resolve_defaults self rest (missing ++ [name]) defaults_to_use
      end
  end.

Definition verify (self : Interface) (type_ : pytype)
  : result (dict value) :=
  match _diff_signatures self type_ with
  | Raise e => Raise e
  | Ok (raw_missing, mistyped, mismatched) =>
      match resolve_defaults self raw_missing [] [] with
      | Raise e => Raise e
      | Ok (missing, defaults_to_use) =>
          if is_nil missing && is_nil mistyped && is_nil mismatched
          then Ok defaults_to_use
          else Raise (_invalid_implementation self type_
                        missing mistyped mismatched)
      end
  end.

(** [Interface.__new__]: it has no other path than the [raise]. *)
Definition Interface_new (cls : Interface) (args : list value)
    (kwargs : dict value) : result value :=
  Raise (TypeError ("Can't instantiate interface " ++ i_name cls)).

(** Attribute lookup of [__new__] on a class: the first namespace that
    defines it, along the namespaces of [cls.mro()]. *)
Fixpoint lookup_new (namespaces : list (dict value)) : option value :=
  match namespaces with
  | [] => None
  | ns :: rest =>
      match dict_get "__new__" ns with
      | Some f => Some f
      | None => lookup_new rest
      end
  end.

(** Calling an interface class, [cls(...)].  [InterfaceMeta] has no
    [__call__] of its own, so this is [type.__call__]: it calls the
    [__new__] that attribute lookup finds on [cls].  [ancestors] are the
    namespaces of the classes that [cls.mro()] lists between [cls] and
    [Interface]; when neither [cls] nor one of them defines [__new__], the
    lookup ends at [Interface.__new__].  A [__new__] written in a class
    body is code of the caller: [call f cls args kwargs] is what the rest
    of [type.__call__] gives with it. *)
Definition Interface_call
    (call : value → Interface → list value → dict value → result value)
    (cls : Interface) (ancestors : list (dict value))
    (args : list value) (kwargs : dict value) : result value :=
  match lookup_new (i_vars cls :: ancestors) with
  | Some f => call f cls args kwargs
  | None => Interface_new cls args kwargs
  end.

(** ** Allocation and the memo table *)

(** The state threaded through class creation and [implements]: the next
    fresh object identity and the table [_memo], which is private to the
    closure of [implements].  [_memo] is a [WeakKeyDictionary], but each
    value holds its own key strongly ([result._interfaces is interfaces]),
    so an entry is never dropped. *)
Record state := {
  next_id : positive;
  _memo : gmap (gset objkey) pytype;
}.

Definition initial_state : state := {| next_id := 2; _memo := ∅ |}.

Definition M (A : Type) : Type := state → result A * state.

Definition alloc : M positive :=
  λ s, (Ok (next_id s), {| next_id := Pos.succ (next_id s); _memo := _memo s |}).

(** [InterfaceMeta.__new__]; [bases] is only handed on to [type.__new__],
    as is [clsdict], which becomes the namespace of the class. *)
Definition InterfaceMeta_new (name : string) (bases : list Interface)
    (clsdict : dict value) : M Interface :=
  λ s,
    match collect_fields name
            (keyfilter is_interface_field_name clsdict) [] [] with
    | Raise e => (Raise e, s)
    | Ok (signatures, defaults) =>
        let '(r, s') := alloc s in
        (result_bind r (λ id,
           Ok {| i_id := id; i_name := name; i_vars := clsdict;
                 _signatures := signatures; _defaults := defaults |}), s')
    end.

(** ** ImplementsMeta *)

Definition _conflicting_defaults (typename : string)
    (conflicts : dict (list Interface)) : exn :=
  let message :=
    nl ++ "class " ++ typename
       ++ " received conflicting default implementations:" in
  InvalidImplementation
    (foldl (λ message '(attrname, interfaces),
        message ++ nl ++ nl
          ++ "The following interfaces provided default implementations for "
          ++ repr attrname ++ ":" ++ nl
          ++ join nl (sorted ((λ iface, "  - " ++ i_name iface) <$> interfaces)))
      message conflicts).

(** Attribute lookup of [_interfaces] on a class: the first class of its
    ancestry chain that has one. *)
Fixpoint first_interfaces (types : list pytype) : option (list Interface) :=
  match types with
  | [] => None
  | t :: rest =>
      match ty_interfaces t with
      | Some i => Some i
      | None => first_interfaces rest
      end
  end.

Definition getattr_interfaces (t : pytype) : result (list Interface) :=
  match first_interfaces (mro t) with
  | Some i => Ok i
  | None => Raise (AttributeError "_interfaces")
  end.

Fixpoint concat_interfaces (types : list pytype)
  : result (list Interface) :=
  match types with
  | [] => Ok []
  | t :: rest =>
      result_bind (getattr_interfaces t) (λ own,
      result_bind (concat_interfaces rest) (λ others, Ok (own ++ others)%list))
  end.

Definition _interfaces_with_duplicates (self : pytype)
  : result (list Interface) :=
  result_bind (getattr_interfaces self) (λ own,
  result_bind (concat_interfaces (filter (λ t, ty_implements_meta t = true)
                                         (mro self)))
    (λ inherited, Ok (own ++ inherited)%list)).

(** Modelled from the spec: [unique] comes from [utils.py], which is not in
    the sources at hand: "deduplicated while preserving discovery order —
    first occurrence wins".  Interface classes compare by identity. *)
Fixpoint unique_from (seen : list positive) (l : list Interface)
  : list Interface :=
  match l with
  | [] => []
  | x :: l' =>
      if bool_decide (i_id x ∈ seen) then unique_from seen l'
      else x :: unique_from (i_id x :: seen) l'
  end.

Definition unique : list Interface → list Interface := unique_from [].

Definition interfaces (self : pytype) : result (list Interface) :=
  result_bind (_interfaces_with_duplicates self) (λ l, Ok (unique l)).

(** The body of the [try] in [ImplementsMeta.__new__]: record the defaults
    one interface resolved and who provided them. *)
Definition record_defaults (iface : Interface)
    (defaults_from_iface : dict value)
    (acc : dict value * dict (list Interface))
  : dict value * dict (list Interface) :=
  foldl (λ '(default_impls, default_providers) '(name, impl),
           (dict_set name impl default_impls,
            dict_set name
              (default [] (dict_get name default_providers) ++ [iface])%list
              default_providers))
        acc defaults_from_iface.

Fixpoint verify_each (newtype : pytype) (ifaces : list Interface)
    (errors : list exn) (acc : dict value * dict (list Interface))
  : result (list exn * (dict value * dict (list Interface))) :=
  match ifaces with
  | [] => Ok (errors, acc)
  | iface :: rest =>
      match verify iface newtype with
      | Ok defaults_from_iface =>
          verify_each newtype rest errors
            (record_defaults iface defaults_from_iface acc)
      | Raise e =>
          if is_InvalidImplementation e
          then verify_each newtype rest (errors ++ [e]) acc
          else Raise e
      end
  end.

Definition setattr (t : pytype) (name : string) (v : value) : pytype :=
  {| ty_id := ty_id t; ty_name := ty_name t;
     ty_vars := dict_set name v (ty_vars t);
     ty_implements_meta := ty_implements_meta t;
     ty_interfaces := ty_interfaces t;
     ty_ancestors := ty_ancestors t |}.

(** The checks of [ImplementsMeta.__new__] on the freshly created class. *)
Definition check_implementation (newtype : pytype) : result pytype :=
  result_bind (interfaces newtype) (λ ifaces,
  result_bind (verify_each newtype ifaces [] ([], [])) (λ '(errors, acc),
    let '(default_impls, default_providers) := acc in
    let duplicate_defaults :=
      valfilter (λ ifaces : list Interface, bool_decide (1 < length ifaces))
                default_providers in
    let '(errors, newtype) :=
      if negb (is_nil duplicate_defaults)
      then ((errors ++ [_conflicting_defaults (ty_name newtype)
                          duplicate_defaults])%list, newtype)
      else (errors,
            foldl (λ t '(name, impl), setattr t name impl)
                  newtype default_impls) in
    match errors with
    | [] => Ok newtype
    | [e] => Raise e
    | _ => Raise (InvalidImplementation
                    (join (nl ++ nl) (exn_str <$> errors)))
    end)).

(** [super().__new__(mcls, name, bases, clsdict)] at the identity [id]: the
    new class has no [_interfaces] of its own yet.  The bases enter through
    [ancestors], their linearisation as computed by [type.__new__]. *)
Definition type_new (id : positive) (name : string) (ancestors : list pytype)
    (clsdict : dict value) : pytype :=
  {| ty_id := id; ty_name := name; ty_vars := clsdict;
     ty_implements_meta := true; ty_interfaces := None;
     ty_ancestors := ancestors |}.

(** [ImplementsMeta.__new__(mcls, name, bases, clsdict, interfaces)] *)
Definition ImplementsMeta_new (name : string) (ancestors : list pytype)
    (clsdict : dict value) (interfaces : list Interface) : M pytype :=
  λ s,
    let '(r, s') := alloc s in
    (result_bind r (λ id,
       let newtype := type_new id name ancestors clsdict in
       if negb (is_nil interfaces) then Ok newtype
       else check_implementation newtype), s').

(** [ImplementsMeta.__init__]: [mcls._interfaces = interfaces]. *)
Definition ImplementsMeta_init (t : pytype) (interfaces : list Interface)
  : pytype :=
  {| ty_id := ty_id t; ty_name := ty_name t; ty_vars := ty_vars t;
     ty_implements_meta := ty_implements_meta t;
     ty_interfaces := Some interfaces;
     ty_ancestors := ty_ancestors t |}.

(** Calling the metaclass (also what a class statement does): [__new__],
    then [__init__] on its result. *)
Definition ImplementsMeta_call (name : string) (ancestors : list pytype)
    (clsdict : dict value) (interfaces : list Interface) : M pytype :=
  λ s,
    let '(r, s') := ImplementsMeta_new name ancestors clsdict interfaces s in
    (result_bind r (λ t, Ok (ImplementsMeta_init t interfaces)), s').
(** ** implements *)

(** What a caller may pass to [implements]: an interface class (a class
    for which [issubclass(_, Interface)] holds), any other class, a
    hashable object that is not a class, or an unhashable object.  [str]
    is the object's [str()]. *)
Inductive pyobj :=
| OInterface (iface : Interface)
| OClass (id : positive) (str : string)
| OHashable (id : positive) (str : string)
| OUnhashable (tyname : string).

Definition is_interface (o : pyobj) : bool :=
  match o with
  | OInterface _ => true
  | _ => false
  end.

(** [hash(o)] together with identity: the key of [o] as a set element. *)
Definition hash_key (o : pyobj) : result objkey :=
  match o with
  | OInterface iface => Ok (inl (i_id iface))
  | OClass id _ => Ok (inr (inl id))
  | OHashable id _ => Ok (inr (inr id))
  | OUnhashable tyname => Raise (TypeError ("unhashable type: " ++ repr tyname))
  end.

(** [frozenset(args)]: of equal elements the first one is kept. *)
Fixpoint frozenset (args : list pyobj) : result (gmap objkey pyobj) :=
  match args with
  | [] => Ok ∅
  | o :: rest =>
      result_bind (hash_key o) (λ k,
      result_bind (frozenset rest) (λ s, Ok (<[k := o]> s)))
  end.

(** The elements of a frozenset in iteration order. *)
Definition elems (fs : gmap objkey pyobj) : list pyobj := (map_to_list fs).*2.

(** The validation loop of [implements]; [issubclass] itself raises for an
    argument that is not a class. *)
Fixpoint check_interfaces (objs : list pyobj) : result (list Interface) :=
  match objs with
  | [] => Ok []
  | OInterface iface :: rest =>
      result_bind (check_interfaces rest) (λ l, Ok (iface :: l))
  | OClass _ str :: _ =>
      Raise (TypeError
               ("implements() expected an Interface, but got " ++ str ++ "."))
  | _ :: _ => Raise (TypeError "issubclass() arg 1 must be a class")
  end.

Definition format_iface_method_docs (I : Interface) : string :=
  let iface_name := i_name I in
  join nl ((λ '(method_name, sig),
              iface_name ++ "." ++ method_name ++ sig_str sig)
           <$> sorted_by fst (_signatures I)).

Definition implements (interfaces : list pyobj) : M pytype :=
  λ s,
    if is_nil interfaces
    then (Raise (TypeError "implements() requires at least one interface"), s)
    else
      match frozenset interfaces with
      | Raise e => (Raise e, s)
      | Ok interfaces =>
          match _memo s !! dom interfaces with
          | Some t => (Ok t, s)
          | None =>
              match check_interfaces (elems interfaces) with
              | Raise e => (Raise e, s)
              | Ok ifaces =>
                  let ordered_ifaces := sorted_by i_name ifaces in
                  let iface_names := i_name <$> ordered_ifaces in
                  let name := "Implements" ++ join "_" iface_names in
                  let doc :=
                    "Implementation of " ++ join ", " iface_names ++ "."
                      ++ nl ++ nl ++ "Methods" ++ nl ++ "-------" ++ nl
                      ++ join nl (format_iface_method_docs <$> ordered_ifaces)
                  in
                  match ImplementsMeta_call name [object_]
                          [("__doc__", str_value doc)] ifaces s with
                  | (Raise e, s') => (Raise e, s')
                  | (Ok result, s') =>
                      (Ok result,
                       {| next_id := next_id s';
                          _memo := <[dom interfaces := result]> (_memo s') |})
                  end
              end
          end
      end.

(** ** Conformance of a single member *)

(** The candidate has the member, of an accepted kind and with a
    compatible call shape. *)
Definition implemented (iface_sig : typed_signature) (type_ : pytype)
    (name : string) : Prop :=
  ∃ f impl_sig,
    static_get_type_attr type_ name = Some f ∧
    TypedSignature f = Ok impl_sig ∧
    issubclass impl_sig.1 iface_sig.1 = true ∧
    compatible impl_sig.2 iface_sig.2 = true.

(** The candidate lacks the member and the interface has a default for it
    whose implementation is [impl]. *)
Definition defaulted (self : Interface) (type_ : pytype) (name : string)
    (impl : value) : Prop :=
  static_get_type_attr type_ name = None ∧
  ∃ d, dict_get name (_defaults self) = Some d ∧ as_default d = Some impl.

Definition member_ok (self : Interface) (type_ : pytype) (name : string)
    (iface_sig : typed_signature) : Prop :=
  implemented iface_sig type_ name ∨ ∃ impl, defaulted self type_ name impl.

(** What the diff loop maintains about its [missing] and [mismatched]
    accumulators, relative to the declared items [all]. *)
Definition diff_inv (type_ : pytype) (all : list (string * typed_signature))
    (missing : list string) (mismatched : dict typed_signature) : Prop :=
  (∀ n, n ∈ missing → static_get_type_attr type_ n = None) ∧
  (∀ n impl_sig, dict_get n mismatched = Some impl_sig →
     ∃ iface_sig f,
       (n, iface_sig) ∈ all ∧
       static_get_type_attr type_ n = Some f ∧
       TypedSignature f = Ok impl_sig ∧
       compatible impl_sig.2 iface_sig.2 = false).

(** Only sets of interface classes are memoised. *)
Definition memo_inv (s : state) : Prop :=
  ∀ ks t, _memo s !! ks = Some t → ∀ k, k ∈ ks → ∃ id, k = inl id.


(** [later s s']: the module can get from state [s] to [s'].  [_memo] is
    written by [implements] only, and identities are only ever allocated. *)
Inductive later (s : state) : state → Prop :=
| later_refl : later s s
| later_implements args s' :
    later s s' → later s (implements args s').2
| later_interface name bases clsdict s' :
    later s s' → later s (InterfaceMeta_new name bases clsdict s').2
| later_class name ancestors clsdict s' :
    later s s' → later s (ImplementsMeta_call name ancestors clsdict [] s').2.

Definition reachable : state → Prop := later initial_state.
End engine.

(** ** A sample runtime

    A small instance of the collaborators on which the engine can be run:
    the four member kinds, parameter-name lists as call shapes, kinds and
    shapes compared by equality. *)
Module Demo.

Inductive dkind := KFunction | KStaticmethod | KClassmethod | KProperty.

(** The objects of the sample.  [VBuiltin name] is a builtin function
    that has no introspectable signature, such as [min]: [inspect.signature]
    raises [ValueError] for it.  [VAllocator] is the function
    [def __new__(cls): return object.__new__(cls)], and [VInstance c] an
    instance of the class named [c]. *)
Inductive dvalue :=
| VFunction (params : list string)
| VStaticmethod (params : list string)
| VClassmethod (params : list string)
| VProperty (params : list string)
| VDefault (implementation : dvalue)
| VInt (n : Z)
| VStr (s : string)
| VBuiltin (name : string)
| VAllocator
| VInstance (class_name : string).

#[global] Instance dkind_eq_dec : EqDecision dkind.
Proof. solve_decision. Defined.

Fixpoint dTypedSignature (v : dvalue) : result (dkind * list string) :=
  match v with
  | VFunction params => Ok (KFunction, params)
  | VStaticmethod params => Ok (KStaticmethod, params)
  | VClassmethod params => Ok (KClassmethod, params)
  | VProperty params => Ok (KProperty, params)
  | VDefault implementation => dTypedSignature implementation
  | VInt _ => Raise (TypeError "Can't extract function from object of type int")
  | VStr _ => Raise (TypeError "Can't extract function from object of type str")
  | VBuiltin name =>
      Raise (ValueError
               ("no signature found for builtin <built-in function "
                  ++ name ++ ">"))
  | VAllocator => Ok (KFunction, ["cls"])
  | VInstance class_name =>
      Raise (TypeError
               ("Can't extract function from object of type " ++ class_name))
  end.

Definition dkind_name (k : dkind) : string :=
  match k with
  | KFunction => "function"
  | KStaticmethod => "staticmethod"
  | KClassmethod => "classmethod"
  | KProperty => "property"
  end.

Definition dtype_name (v : dvalue) : string :=
  match v with
  | VFunction _ => "function"
  | VStaticmethod _ => "staticmethod"
  | VClassmethod _ => "classmethod"
  | VProperty _ => "property"
  | VDefault _ => "default"
  | VInt _ => "int"
  | VStr _ => "str"
  | VBuiltin _ => "builtin_function_or_method"
  | VAllocator => "function"
  | VInstance class_name => class_name
  end.

#[global] Instance runtime : Runtime := {|
  value := dvalue;
  kind := dkind;
  signature := list string;
  TypedSignature := dTypedSignature;
  sig_str := λ sig, "(" ++ join ", " sig.2 ++ ")";
  type_name := dtype_name;
  kind_name := dkind_name;
  as_default := λ v, match v with VDefault i => Some i | _ => None end;
  issubclass := λ a b, bool_decide (a = b);
  compatible := λ a b, bool_decide (a = b);
  repr := λ s, "'" ++ s ++ "'";
  str_value := VStr;
  object_vars := [];
|}.

(** A default shared by two interfaces, and the two interfaces. *)
Definition shared_default : dvalue := VDefault (VFunction ["self"]).

Definition declare (name : string) (clsdict : dict dvalue) : M Interface :=
  InterfaceMeta_new name [] clsdict.



(** The two interface definitions that program declares. *)
Definition iface1 : Interface :=
  {| i_id := 2; i_name := "I1"; i_vars := [("m", shared_default)];
     _signatures := [("m", (KFunction, ["self"]))];
     _defaults := [("m", shared_default)] |}.


(** An interface whose default for [m] is another function. *)
Definition other_default : dvalue := VDefault (VFunction ["self"; "x"]).

Definition iface3 : Interface :=
  {| i_id := 3; i_name := "I3"; i_vars := [("m", other_default)];
     _signatures := [("m", (KFunction, ["self"; "x"]))];
     _defaults := [("m", other_default)] |}.

(** The state after two interface declarations. *)
Definition declared : state := {| next_id := 4; _memo := ∅ |}.

(** [class Shape(Interface): def area(self): ...; def name(self): ...],
    with a default for [name]. *)
Definition shape : Interface :=
  {| i_id := 2; i_name := "Shape";
     i_vars := [("__doc__", VStr "doc"); ("area", VFunction ["self"]);
                ("name", VDefault (VFunction ["self"]))];
     _signatures := [("area", (KFunction, ["self"]));
                     ("name", (KFunction, ["self"]))];
     _defaults := [("name", VDefault (VFunction ["self"]))] |}.

Definition plain_class (id : positive) (name : string)
    (clsdict : dict dvalue) : pytype :=
  {| ty_id := id; ty_name := name; ty_vars := clsdict;
     ty_implements_meta := false; ty_interfaces := None;
     ty_ancestors := [object_] |}.

(** A class that defines both members as declared. *)
Definition circle : pytype :=
  plain_class 3 "Circle"
    [("area", VFunction ["self"]); ("name", VFunction ["self"])].

(** A class that defines [area] only. *)
Definition disc : pytype :=
  plain_class 4 "Disc" [("area", VFunction ["self"])].

(** A class whose [area] is a static method of another shape. *)
Definition square : pytype :=
  plain_class 5 "Square"
    [("area", VStaticmethod ["x"; "y"]); ("name", VFunction ["self"])].

(** [implements(I1, I3)] requested first in the state [declared]: the base
    it makes and the state it leaves. *)
Definition base13 : pytype :=
  match (implements [OInterface iface1; OInterface iface3] declared).1 with
  | Ok t => t
  | Raise _ => object_
  end.

Definition state13 : state :=
  (implements [OInterface iface1; OInterface iface3] declared).2.

(** A class body with a member that is no callable. *)
Definition bad_body : dict dvalue :=
  [("__doc__", VStr "doc"); ("f", VFunction ["self"]); ("n", VInt 3)].









Definition blob : pytype := plain_class 6 "Blob" [].

Definition broken : pytype := plain_class 7 "Broken" [("area", VInt 3)].

Definition shape_body : dict dvalue :=
  [("__doc__", VStr "doc"); ("area", VFunction ["self"]);
   ("name", VDefault (VFunction ["self"]))].

(** [class Ordered(Interface): smallest = min] *)
Definition ordered_body : dict dvalue := [("smallest", VBuiltin "min")].

(** [class Point(Interface)] with a constructor of its own:
    [def __new__(cls): return object.__new__(cls)]. *)
Definition point_body : dict dvalue := [("__new__", VAllocator)].

(** Calling a [__new__] of the sample.  The allocator, called with the
    class alone, returns a new instance of it, on which [type.__call__]
    then runs [object.__init__].  It is the only value of the sample with
    a body; the last case stands for calls that the sample does not
    contain. *)
Definition call_new (f : dvalue) (cls : Interface) (args : list dvalue)
    (kwargs : dict dvalue) : result dvalue :=
  match f, args, kwargs with
  | VAllocator, [], [] => Ok (VInstance (i_name cls))
  | VAllocator, _, _ =>
      Raise (TypeError "__new__() takes 1 positional argument")
  | _, _, _ => Raise (TypeError "not a constructor of the sample")
  end.


End Demo.

(** ** Derived notions used in the statements *)

Section notions.
Context `{R : Runtime}.

(** The candidate has no member of that name anywhere in its ancestry. *)
Definition lacks (type_ : pytype) (name : string) : bool :=
  match static_get_type_attr type_ name with
  | None => true
  | Some _ => false
  end.

(** The candidate lacks the member and the interface offers no default. *)
Definition uncovered (self : Interface) (type_ : pytype) (name : string)
  : bool :=
  lacks type_ name &&
  match dict_get name (_defaults self) with
  | None => true
  | Some _ => false
  end.

(** Every stored default is an instance of [default]. *)
Definition defaults_wf (self : Interface) : Prop :=
  ∀ k d, dict_get k (_defaults self) = Some d → is_Some (as_default d).

(** The identities under which a list of interfaces is a set. *)
Definition iface_keys (ifaces : list Interface) : gset objkey :=
  list_to_set ((λ i, inl (i_id i)) <$> ifaces).

(** What [implements] keeps true of its table: an entry is a class made
    by [ImplementsMeta] directly under [object], it stores a non-empty
    interface set which is its key, its identity has been allocated, and
    two entries never share an identity. *)
Definition memo_wf (s : state) : Prop :=
  (∀ ks t, _memo s !! ks = Some t →
     ty_implements_meta t = true ∧ ty_ancestors t = [object_] ∧
     (ty_id t < next_id s)%positive ∧
     ∃ ifaces, ty_interfaces t = Some ifaces ∧ ifaces ≠ [] ∧
               iface_keys ifaces = ks) ∧
  (∀ ks1 ks2 t1 t2, _memo s !! ks1 = Some t1 → _memo s !! ks2 = Some t2 →
     ty_id t1 = ty_id t2 → ks1 = ks2).

(** Identities are object identities: when the table already holds a base
    under the identities of [ifaces], that base was made for these very
    interface classes. *)
Definition made_for (s : state) (ifaces : list Interface) : Prop :=
  ∀ t stored, _memo s !! iface_keys ifaces = Some t →
    ty_interfaces t = Some stored → ∀ j, j ∈ stored → j ∈ ifaces.

(** A present member of the wrong kind, as [_diff_signatures] records it:
    [k] is the kind of the candidate's member [n], which is not a subclass
    of a kind declared for [n]. *)
Definition wrong_kind (all : list (string * typed_signature))
    (type_ : pytype) (n : string) (k : kind) : Prop :=
  ∃ iface_sig f impl_sig,
    (n, iface_sig) ∈ all ∧
    static_get_type_attr type_ n = Some f ∧
    TypedSignature f = Ok impl_sig ∧
    k = impl_sig.1 ∧
    issubclass impl_sig.1 iface_sig.1 = false.

(** The interface has no default stored under that name. *)
Definition no_default (self : Interface) (name : string) : bool :=
  match dict_get name (_defaults self) with
  | None => true
  | Some _ => false
  end.
(** ** The verdicts of several interfaces on one class *)






End notions.

(** * Properties *)

(** ** Dictionaries *)

Section dict_facts.
Context {V : Type}.
Local Open Scope list_scope.
Implicit Types (d : dict V) (k : string) (v : V).

Lemma dict_get_set_eq k v d : dict_get k (dict_set k v d) = Some v.
Proof.
  induction d as [|[k' v'] d IH]; simpl.
  - by rewrite decide_True.
  - destruct (decide (k = k')) as [->|Hne]; simpl.
    + by rewrite decide_True.
    + by rewrite decide_False.
Qed.

Lemma dict_get_set_ne k k' v d :
  k ≠ k' → dict_get k (dict_set k' v d) = dict_get k d.
Proof.
  intros Hne. induction d as [|[k0 v0] d IH]; simpl.
  - by rewrite decide_False.
  - destruct (decide (k' = k0)) as [->|Hne']; simpl.
    + by rewrite !decide_False.
    + destruct (decide (k = k0)); done.
Qed.

Lemma keys_dict_set k k' v d :
  k ∈ keys (dict_set k' v d) ↔ k = k' ∨ k ∈ keys d.
Proof.
  unfold keys. induction d as [|[k0 v0] d IH]; simpl.
  - rewrite list_elem_of_singleton, elem_of_nil. tauto.
  - destruct (decide (k' = k0)) as [->|Hne]; simpl.
    + rewrite !elem_of_cons. tauto.
    + rewrite !elem_of_cons, IH. tauto.
Qed.

Lemma dict_get_Some_keys k d : is_Some (dict_get k d) ↔ k ∈ keys d.
Proof.
  unfold keys. induction d as [|[k0 v0] d IH]; simpl.
  - rewrite elem_of_nil. split; [intros [? [=]]|done].
  - rewrite elem_of_cons. destruct (decide (k = k0)) as [->|Hne].
    + split; eauto.
    + rewrite IH. split; [auto|intros [?|?]; done].
Qed.

Lemma dict_get_None_keys k d : dict_get k d = None ↔ k ∉ keys d.
Proof.
  rewrite <- dict_get_Some_keys, eq_None_not_Some. done.
Qed.


Lemma dict_set_fresh k v d : k ∉ keys d → dict_set k v d = d ++ [(k, v)].
Proof.
  unfold keys. induction d as [|[k0 v0] d IH]; simpl; [done|].
  rewrite not_elem_of_cons. intros [Hne Hnin].
  rewrite decide_False by done. by rewrite IH.
Qed.



(** On items with distinct keys a comprehension is a filter. *)
Lemma dict_comp_filter (keep : string → V → bool) (items : list (string * V)) :
  NoDup (keys items) →
  dict_comp keep items = filter (λ kv, keep kv.1 kv.2 = true) items.
Proof.
  unfold dict_comp. intros Hnd.
  enough (∀ acc, (∀ k, k ∈ keys acc → k ∉ keys items) →
    foldl (λ acc kv, if keep kv.1 kv.2 then dict_set kv.1 kv.2 acc else acc)
      acc items = acc ++ filter (λ kv, keep kv.1 kv.2 = true) items) as H.
  { rewrite H; [done|]. intros k Hk. by apply elem_of_nil in Hk. }
  induction items as [|[k v] items IH]; intros acc Hacc; simpl.
  - by rewrite app_nil_r.
  - unfold keys in Hnd. simpl in Hnd. apply NoDup_cons in Hnd as [Hnin Hnd].
    rewrite filter_cons. simpl. destruct (keep k v) eqn:Hk.
    + rewrite decide_True by done. rewrite IH; [|done|].
      * rewrite dict_set_fresh; [by rewrite <- app_assoc|].
        intros Hin. apply Hacc in Hin. apply Hin. unfold keys. simpl.
        apply list_elem_of_here.
      * intros k' Hk'. apply keys_dict_set in Hk' as [->|Hk']; [done|].
        apply Hacc in Hk'. unfold keys in Hk'. simpl in Hk'.
        by apply not_elem_of_cons in Hk' as [_ ?].
    + rewrite decide_False by done. apply IH; [done|].
      intros k' Hk'. apply Hacc in Hk'. unfold keys in Hk'. simpl in Hk'.
      by apply not_elem_of_cons in Hk' as [_ ?].
Qed.
End dict_facts.

(** ** Interface definitions *)

Section interface_facts.
Context `{R : Runtime}.
Local Open Scope list_scope.

Lemma collect_fields_defaults name items sigs defs sigs' defs' :
  collect_fields name items sigs defs = Ok (sigs', defs') →
  (∀ k, k ∈ keys defs → k ∈ keys sigs) →
  ∀ k, k ∈ keys defs' → k ∈ keys sigs'.
Proof.
  revert sigs defs. induction items as [|[k0 v0] items IH]; simpl.
  - intros sigs defs [= -> ->]. done.
  - intros sigs defs. destruct (TypedSignature v0) as [sig|e] eqn:Hts.
    + intros Hrun Hinv. eapply IH; [exact Hrun|].
      intros k Hk. apply keys_dict_set.
      destruct (as_default v0).
      * apply keys_dict_set in Hk as [->|Hk]; auto.
      * auto.
    + destruct (is_TypeError e); done.
Qed.

(** The loop over the fields of a body stops at the first one that the
    normaliser rejects: a [TypeError] is wrapped, anything else passes
    through. *)
Lemma collect_fields_fails name (field : string → bool)
    (body : list (string * value)) sigs defs k v e :
  (k, v) ∈ body → field k = true → TypedSignature v = Raise e →
  ∃ before k' v' e' after,
    body = before ++ (k', v') :: after ∧ field k' = true ∧
    (∀ k0 v0, (k0, v0) ∈ before → field k0 = true →
              ∃ sig, TypedSignature v0 = Ok sig) ∧
    TypedSignature v' = Raise e' ∧
    collect_fields name (filter (λ kv, field kv.1 = true) body) sigs defs
    = Raise (if is_TypeError e'
             then TypeError (parse_errmsg name k' (type_name v'))
             else e').
Proof.
  intros Hin Hfield Hfail. revert sigs defs.
  induction body as [|[k0 v0] body IH]; intros sigs defs.
  - by apply elem_of_nil in Hin.
  - rewrite filter_cons. simpl.
    destruct (field k0) eqn:Hk0; simpl.
    + destruct (TypedSignature v0) as [sig|e0] eqn:Hts.
      * apply elem_of_cons in Hin as [[= -> ->]|Hin]; [congruence|].
        destruct (IH Hin (dict_set k0 sig sigs)
                    (match as_default v0 with
                     | Some _ => dict_set k0 v0 defs
                     | None => defs
                     end))
          as (before & k' & v' & e' & after & -> & Hf' & Hbefore & He' & Hrun).
        exists ((k0, v0) :: before), k', v', e', after.
        split_and!; [done|done| |done|done].
        intros k1 v1 [[= -> ->]|Hin1]%elem_of_cons ?; eauto.
      * exists [], k0, v0, e0, body.
        split_and!; [done|done| |done|by destruct (is_TypeError e0)].
        intros ?? ?%elem_of_nil. done.
    + apply elem_of_cons in Hin as [[= -> ->]|Hin]; [congruence|].
      destruct (IH Hin sigs defs)
        as (before & k' & v' & e' & after & -> & Hf' & Hbefore & He' & Hrun).
      exists ((k0, v0) :: before), k', v', e', after.
      split_and!; [done|done| |done|done].
      intros k1 v1 [[= -> ->]|Hin1]%elem_of_cons ?; [congruence|eauto].
Qed.

Lemma keyfilter_elem_of {V} (f : string → bool) (d : dict V) k v :
  NoDup (keys d) → (k, v) ∈ keyfilter f d ↔ f k = true ∧ (k, v) ∈ d.
Proof.
  intros Hnd. unfold keyfilter. rewrite dict_comp_filter by done.
  rewrite list_elem_of_filter. done.
Qed.

(** C9: in an interface definition that [InterfaceMeta.__new__] has built,
    every key of [_defaults] is a key of [_signatures].  The definition is
    a value that no later operation of the module rewrites, so what holds
    at construction holds for as long as the definition is used. *)
Theorem defaults_within_signatures name bases clsdict s iface s' :
  InterfaceMeta_new name bases clsdict s = (Ok iface, s') →
  ∀ k, k ∈ keys (_defaults iface) → k ∈ keys (_signatures iface).
Proof.
  unfold InterfaceMeta_new.
  destruct (collect_fields name _ [] []) as [[sigs defs]|e] eqn:Hrun; [|done].
  simpl. intros [= <- <-]. simpl.
  eapply collect_fields_defaults; [exact Hrun|].
  intros k Hk. by apply elem_of_nil in Hk.
Qed.

(** C8, as the code has it: when the body of an interface declaration has
    a member outside the whitelist whose value the signature normaliser
    rejects, [InterfaceMeta.__new__] itself raises, so that no definition
    is created and nothing is left to verification.  What it raises is
    decided by the first such member [k'] of the body: when the normaliser
    rejected its value with a [TypeError], a [TypeError] that names the
    interface, [k'] and the type of its value; and when it raised anything
    else, that exception as it is, since [TypeError] alone is caught. *)
Theorem unparsable_member_rejected name bases clsdict s k v e :
  NoDup (keys clsdict) →
  (k, v) ∈ clsdict →
  is_interface_field_name k = true →
  TypedSignature v = Raise e →
  ∃ before k' v' e' after,
    clsdict = before ++ (k', v') :: after ∧
    is_interface_field_name k' = true ∧
    (∀ k0 v0, (k0, v0) ∈ before → is_interface_field_name k0 = true →
              ∃ sig, TypedSignature v0 = Ok sig) ∧
    TypedSignature v' = Raise e' ∧
    InterfaceMeta_new name bases clsdict s
    = (Raise (if is_TypeError e'
              then TypeError (parse_errmsg name k' (type_name v'))
              else e'), s).
Proof.
  intros Hnd Hin Hfield Hfail.
  destruct (collect_fields_fails name is_interface_field_name clsdict [] []
              k v e Hin Hfield Hfail)
    as (before & k' & v' & e' & after & Hsplit & Hf' & Hbefore & He' & Hrun).
  exists before, k', v', e', after. split_and!; [done..|].
  unfold InterfaceMeta_new, keyfilter. rewrite dict_comp_filter by done.
  simpl. by rewrite Hrun.
Qed.

Lemma lookup_new_None namespaces :
  (∀ ns, ns ∈ namespaces → "__new__" ∉ keys ns) →
  lookup_new namespaces = None.
Proof.
  induction namespaces as [|ns rest IH]; simpl; intros Hall; [done|].
  rewrite (proj2 (dict_get_None_keys "__new__" ns));
    [|apply Hall, list_elem_of_here].
  apply IH. intros ns' Hns'. apply Hall. by apply list_elem_of_further.
Qed.

(** C6, as the code has it: an interface class whose body defines no
    [__new__], and none of whose ancestors before [Interface] does, is
    never instantiated: calling it runs [Interface.__new__], which raises
    the [TypeError] that names the interface, whatever the arguments.
    ([__new__] is a member name like any other: a body may define one, and
    calling the class then runs it.) *)
Theorem interface_not_instantiable call name bases clsdict s cls s'
    ancestors args kwargs :
  InterfaceMeta_new name bases clsdict s = (Ok cls, s') →
  "__new__" ∉ keys clsdict →
  (∀ ns, ns ∈ ancestors → "__new__" ∉ keys ns) →
  Interface_call call cls ancestors args kwargs
  = Raise (TypeError ("Can't instantiate interface " ++ name)%string).
Proof.
  unfold InterfaceMeta_new.
  destruct (collect_fields name _ [] []) as [[sigs defs]|e]; [|done].
  simpl. intros [= <- <-] Hown Hanc. unfold Interface_call.
  rewrite lookup_new_None; [done|].
  intros ns [->|Hns]%elem_of_cons; [done|by apply Hanc].
Qed.
End interface_facts.

(** ** Verification *)

Section verify_facts.
Context `{R : Runtime}.
Local Open Scope list_scope.

(** When every declared member is implemented or covered by a default,
    the diff has nothing mistyped or mismatched, and its missing names are
    the declared names the candidate lacks. *)
Lemma diff_loop_conforming self type_ items missing :
  (∀ name sig, (name, sig) ∈ items → member_ok self type_ name sig) →
  ∃ lacking,
    diff_loop type_ items missing [] [] = Ok (missing ++ lacking, [], []) ∧
    ∀ n, n ∈ lacking ↔ n ∈ keys items ∧ static_get_type_attr type_ n = None.
Proof.
  revert missing. induction items as [|[name sig] items IH]; simpl.
  - intros missing _. exists []. rewrite app_nil_r. split; [done|].
    intros n. unfold keys. simpl. rewrite !elem_of_nil. tauto.
  - intros missing Hok.
    assert (∀ name' sig', (name', sig') ∈ items →
                          member_ok self type_ name' sig') as Hrest.
    { intros ?? Hin. apply Hok. by apply list_elem_of_further. }
    destruct (Hok name sig) as [(f & impl & Hget & Hts & Hk & Hc)
                               |(impl & Hget & _)];
      [apply list_elem_of_here| |]; rewrite Hget.
    + rewrite Hts, Hk, Hc. destruct (IH missing Hrest) as (lacking & -> & Hl).
      exists lacking. split; [done|]. intros n. rewrite Hl.
      unfold keys. simpl. rewrite elem_of_cons.
      split; [tauto|]. intros [[->|?] ?]; [congruence|done].
    + destruct (IH (missing ++ [name]) Hrest) as (lacking & -> & Hl).
      exists (name :: lacking). rewrite <- app_assoc. split; [done|].
      intros n. unfold keys. simpl. rewrite !elem_of_cons, Hl.
      split; [|tauto]. intros [->|[??]]; auto.
Qed.

(** When each missing name has a default, all of them are resolved. *)
Lemma resolve_defaults_covered self raw missing acc :
  (∀ n, n ∈ raw → ∃ d impl, dict_get n (_defaults self) = Some d ∧
                            as_default d = Some impl) →
  ∃ resolved,
    resolve_defaults self raw missing acc = Ok (missing, resolved) ∧
    (∀ n d impl, n ∈ raw → dict_get n (_defaults self) = Some d →
                 as_default d = Some impl → dict_get n resolved = Some impl) ∧
    (∀ n, n ∉ raw → dict_get n resolved = dict_get n acc).
Proof.
  revert acc. induction raw as [|name raw IH]; simpl; intros acc Hcov.
  - exists acc. split; [done|]. split; [|done].
    intros n ?? Hn. by apply elem_of_nil in Hn.
  - destruct (Hcov name) as (d & impl & Hd & Himpl); [apply list_elem_of_here|].
    rewrite Hd, Himpl.
    destruct (IH (dict_set name impl acc)) as (resolved & -> & Hin & Hout).
    { intros n Hn. apply Hcov. by apply list_elem_of_further. }
    exists resolved. split; [done|]. split.
    + intros n d' impl' Hn Hd' Himpl'.
      destruct (decide (n ∈ raw)) as [Hr|Hr]; [eauto|].
      apply elem_of_cons in Hn as [->|Hn]; [|done].
      rewrite Hout by done. rewrite dict_get_set_eq. congruence.
    + intros n [Hne Hn]%not_elem_of_cons. rewrite Hout by done.
      by apply dict_get_set_ne.
Qed.

(** The resolved defaults of a verification that finds every member
    implemented or defaulted. *)
Lemma verify_conforming self type_ :
  (∀ name sig, (name, sig) ∈ _signatures self →
               member_ok self type_ name sig) →
  ∃ resolved,
    verify self type_ = Ok resolved ∧
    (∀ n impl, n ∈ keys (_signatures self) → defaulted self type_ n impl →
               dict_get n resolved = Some impl) ∧
    (∀ n, n ∈ keys resolved →
          n ∈ keys (_signatures self) ∧ static_get_type_attr type_ n = None).
Proof.
  intros Hok. unfold verify, _diff_signatures.
  destruct (diff_loop_conforming self type_ (_signatures self) [] Hok)
    as (lacking & -> & Hl). simpl.
  destruct (resolve_defaults_covered self lacking [] []) as (res & -> & Hin & Hout).
  { intros n Hn. apply Hl in Hn as [Hk Hnone].
    apply list_elem_of_fmap in Hk as ([n' sig] & -> & Hk).
    destruct (Hok n' sig Hk) as [(f & ? & Hget & _)|(impl & _ & d & ? & ?)].
    - simpl in Hnone. congruence.
    - eauto. }
  simpl. exists res. split; [done|]. split.
  - intros n impl Hn [Hnone (d & Hd & Himpl)].
    apply (Hin n d impl); [|done..]. by apply Hl.
  - intros n Hn. destruct (decide (n ∈ lacking)) as [Hla|Hla].
    + by apply Hl in Hla.
    + apply dict_get_Some_keys in Hn. rewrite Hout in Hn by done.
      by destruct Hn.
Qed.

(** C3: a candidate that defines every member named in the signatures of
    an interface with exactly the declared signature passes [verify], which
    returns the empty mapping of resolved defaults.  The kind test and the
    compatibility predicate accept a kind and a call shape compared with
    themselves. *)
Theorem verify_identical_signatures self type_ :
  (∀ k, issubclass k k = true) →
  (∀ sig, compatible sig sig = true) →
  (∀ name sig, (name, sig) ∈ _signatures self →
     ∃ f, static_get_type_attr type_ name = Some f ∧ TypedSignature f = Ok sig) →
  verify self type_ = Ok [].
Proof.
  intros Hsub Hcompat Hdef.
  destruct (verify_conforming self type_) as (resolved & -> & _ & Hnone).
  { intros name sig Hin. left. destruct (Hdef name sig Hin) as (f & ? & ?).
    exists f, sig. auto. }
  f_equal. destruct resolved as [|[n impl] resolved]; [done|].
  exfalso. destruct (Hnone n) as [Hn Hlack]; [apply list_elem_of_here|].
  apply list_elem_of_fmap in Hn as ([n' sig] & -> & Hn).
  destruct (Hdef n' sig Hn) as (f & Hget & _). simpl in Hlack. congruence.
Qed.

(** C4: when an interface declares a default for a member [m] that the
    candidate lacks, and the candidate conforms to every other declared
    member, [verify] succeeds and the mapping it returns takes [m] to the
    implementation of that default. *)
Theorem verify_resolves_default self type_ m impl :
  m ∈ keys (_signatures self) →
  defaulted self type_ m impl →
  (∀ name sig, (name, sig) ∈ _signatures self → name ≠ m →
               member_ok self type_ name sig) →
  ∃ resolved, verify self type_ = Ok resolved ∧ dict_get m resolved = Some impl.
Proof.
  intros Hm Hdef Hothers.
  destruct (verify_conforming self type_) as (resolved & Hrun & Hres & _).
  - intros name sig Hin. destruct (decide (name = m)) as [->|Hne]; [|auto].
    right. by exists impl.
  - exists resolved. split; [done|]. by apply Hres.
Qed.

Lemma diff_loop_inv type_ all items missing mistyped mismatched
    missing' mistyped' mismatched' :
  (∀ x, x ∈ items → x ∈ all) →
  diff_loop type_ items missing mistyped mismatched
  = Ok (missing', mistyped', mismatched') →
  diff_inv type_ all missing mismatched →
  diff_inv type_ all missing' mismatched'.
Proof.
  revert missing mistyped mismatched.
  induction items as [|[name sig] items IH]; simpl;
    intros missing mistyped mismatched Hsub.
  - intros [= -> -> ->]. done.
  - assert (∀ x, x ∈ items → x ∈ all) as Hsub'.
    { intros x Hx. apply Hsub. by apply list_elem_of_further. }
    destruct (static_get_type_attr type_ name) as [f|] eqn:Hget.
    + destruct (TypedSignature f) as [impl|e] eqn:Hts; [|done].
      intros Hrun [Hmiss Hmism]. eapply IH; [done|exact Hrun|].
      split; [done|]. intros n impl_sig.
      destruct (compatible impl.2 sig.2) eqn:Hc; [apply Hmism|].
      destruct (decide (n = name)) as [->|Hne].
      * rewrite dict_get_set_eq. intros [= <-]. exists sig, f.
        split; [apply Hsub, list_elem_of_here|done].
      * rewrite dict_get_set_ne by done. apply Hmism.
    + intros Hrun [Hmiss Hmism]. eapply IH; [done|exact Hrun|].
      split; [|done]. intros n [Hn| ->%list_elem_of_singleton]%elem_of_app; auto.
Qed.

(** C5, as the code has it: a name in the [mismatched] mapping of a diff is
    a declared member that the candidate has (it is not among the missing
    names) and whose call shape is not compatible with a declared one.  The
    kind test is made independently of the shape test, so the name may be
    in [mistyped] as well. *)
Theorem mismatched_present_incompatible self type_ missing mistyped mismatched
    name :
  _diff_signatures self type_ = Ok (missing, mistyped, mismatched) →
  name ∈ keys mismatched →
  (name ∉ missing) ∧
  ∃ iface_sig f impl_sig,
    (name, iface_sig) ∈ _signatures self ∧
    static_get_type_attr type_ name = Some f ∧
    TypedSignature f = Ok impl_sig ∧
    dict_get name mismatched = Some impl_sig ∧
    compatible impl_sig.2 iface_sig.2 = false.
Proof.
  unfold _diff_signatures. intros Hrun Hname.
  destruct (diff_loop_inv type_ (_signatures self) (_signatures self)
              [] [] [] missing mistyped mismatched) as [Hmiss Hmism];
    [done|done| |].
  { split; [|done]. intros n Hn. by apply elem_of_nil in Hn. }
  apply dict_get_Some_keys in Hname as [impl_sig Hget].
  destruct (Hmism name impl_sig Hget) as (iface_sig & f & Hin & Hf & Hts & Hc).
  split.
  - intros Hin'. apply Hmiss in Hin'. congruence.
  - exists iface_sig, f, impl_sig. done.
Qed.
End verify_facts.

(** ** The enforcement base synthesiser *)

Section implements_facts.
Context `{R : Runtime}.
Local Open Scope list_scope.

Lemma hash_key_interface o k :
  hash_key o = Ok k → (is_interface o = true ↔ ∃ id, k = inl id).
Proof.
  destruct o; simpl; intros [= <-]; split; try done; eauto.
  all: intros [? [=]].
Qed.

Lemma frozenset_lookup args fs k o :
  frozenset args = Ok fs → fs !! k = Some o → hash_key o = Ok k ∧ o ∈ args.
Proof.
  revert fs. induction args as [|a args IH]; simpl; intros fs.
  - intros [= <-]. by rewrite lookup_empty.
  - destruct (hash_key a) as [ka|] eqn:Ha; simpl; [|done].
    destruct (frozenset args) as [fs'|]; simpl; [|done].
    intros [= <-]. destruct (decide (ka = k)) as [->|Hne].
    + rewrite lookup_insert_eq. intros [= <-]. split; [done|].
      apply list_elem_of_here.
    + rewrite lookup_insert_ne by done. intros Hl.
      destruct (IH fs' eq_refl Hl). split; [done|].
      by apply list_elem_of_further.
Qed.

Lemma frozenset_dom args fs o :
  frozenset args = Ok fs → o ∈ args → ∃ k, hash_key o = Ok k ∧ k ∈ dom fs.
Proof.
  revert fs. induction args as [|a args IH]; simpl; intros fs Hfs Hin.
  - by apply elem_of_nil in Hin.
  - destruct (hash_key a) as [ka|] eqn:Ha; simpl in Hfs; [|done].
    destruct (frozenset args) as [fs'|]; simpl in Hfs; [|done].
    injection Hfs as <-. apply elem_of_cons in Hin as [->|Hin].
    + exists ka. split; [done|]. apply elem_of_dom. rewrite lookup_insert_eq. eauto.
    + destruct (IH fs' eq_refl Hin) as (k & Hk & Hdom). exists k.
      split; [done|]. rewrite dom_insert_L. set_solver.
Qed.

Lemma frozenset_total args :
  (∀ o, o ∈ args → ∃ k, hash_key o = Ok k) → ∃ fs, frozenset args = Ok fs.
Proof.
  induction args as [|a args IH]; simpl; intros Hh; [eauto|].
  destruct (Hh a) as [k ->]; [apply list_elem_of_here|]. simpl.
  destruct IH as [fs ->]; [|simpl; eauto].
  intros o Ho. apply Hh. by apply list_elem_of_further.
Qed.

Lemma frozenset_raise args e :
  frozenset args = Raise e → ∃ msg, e = TypeError msg.
Proof.
  induction args as [|a args IH]; simpl; [done|].
  destruct a; simpl; try (destruct (frozenset args); simpl; [done|];
    intros [= <-]; by apply IH).
  intros [= <-]. eauto.
Qed.

Lemma frozenset_same_dom l1 l2 fs1 fs2 :
  frozenset l1 = Ok fs1 → frozenset l2 = Ok fs2 →
  (∀ o, o ∈ l1 ↔ o ∈ l2) → dom fs1 = dom fs2.
Proof.
  intros H1 H2 Hsame. apply set_eq. intros k. rewrite !elem_of_dom.
  split; intros [o Ho].
  - destruct (frozenset_lookup _ _ _ _ H1 Ho) as [Hk Hin].
    apply Hsame in Hin.
    destruct (frozenset_dom _ _ _ H2 Hin) as (k' & Hk' & Hd).
    apply elem_of_dom. congruence.
  - destruct (frozenset_lookup _ _ _ _ H2 Ho) as [Hk Hin].
    apply Hsame in Hin.
    destruct (frozenset_dom _ _ _ H1 Hin) as (k' & Hk' & Hd).
    apply elem_of_dom. congruence.
Qed.

Lemma elem_of_elems (fs : gmap objkey pyobj) o :
  o ∈ elems fs ↔ ∃ k, fs !! k = Some o.
Proof.
  unfold elems. rewrite list_elem_of_fmap. split.
  - intros ([k o'] & -> & Hin). exists k. by apply elem_of_map_to_list.
  - intros [k Hk]. exists (k, o). split; [done|]. by apply elem_of_map_to_list.
Qed.

Lemma check_interfaces_Ok objs ifaces :
  check_interfaces objs = Ok ifaces → objs = OInterface <$> ifaces.
Proof.
  revert ifaces. induction objs as [|o objs IH]; simpl; intros ifaces.
  - by intros [= <-].
  - destruct o; try done.
    destruct (check_interfaces objs) as [l|]; simpl; [|done].
    intros [= <-]. simpl. f_equal. by apply IH.
Qed.

Lemma check_interfaces_total objs :
  (∀ o, o ∈ objs → is_interface o = true) →
  ∃ ifaces, check_interfaces objs = Ok ifaces.
Proof.
  induction objs as [|o objs IH]; simpl; intros Hall; [eauto|].
  destruct IH as [l Hl].
  { intros o' Ho'. apply Hall. by apply list_elem_of_further. }
  pose proof (Hall o (list_elem_of_here _ _)) as Ho.
  destruct o; try done. rewrite Hl. simpl. eauto.
Qed.

Lemma check_interfaces_raise objs e :
  check_interfaces objs = Raise e → ∃ msg, e = TypeError msg.
Proof.
  induction objs as [|o objs IH]; simpl; [done|].
  destruct o; try (intros [= <-]; eauto).
  destruct (check_interfaces objs); simpl; [done|].
  intros [= <-]. by apply IH.
Qed.

Lemma check_interfaces_rejects objs o :
  o ∈ objs → is_interface o = false →
  ∃ msg, check_interfaces objs = Raise (TypeError msg).
Proof.
  intros Hin Hno.
  destruct (check_interfaces objs) as [ifaces|e] eqn:Hc.
  - apply check_interfaces_Ok in Hc. subst objs.
    apply list_elem_of_fmap in Hin as (i & -> & _). done.
  - destruct (check_interfaces_raise _ _ Hc) as [msg ->]. eauto.
Qed.

Lemma ImplementsMeta_call_memo name ancestors clsdict ifaces s :
  _memo (ImplementsMeta_call name ancestors clsdict ifaces s).2 = _memo s.
Proof. done. Qed.

Lemma InterfaceMeta_new_memo name bases clsdict s :
  _memo (InterfaceMeta_new name bases clsdict s).2 = _memo s.
Proof.
  unfold InterfaceMeta_new.
  by destruct (collect_fields name _ [] []) as [[??]|].
Qed.

(** The shape of every run of [implements]. *)
Lemma implements_cases args s :
  (args = [] ∧
   implements args s
   = (Raise (TypeError "implements() requires at least one interface"), s)) ∨
  (args ≠ [] ∧ ∃ e, frozenset args = Raise e ∧ implements args s = (Raise e, s)) ∨
  (args ≠ [] ∧ ∃ fs t, frozenset args = Ok fs ∧ _memo s !! dom fs = Some t ∧
     implements args s = (Ok t, s)) ∨
  (args ≠ [] ∧ ∃ fs e, frozenset args = Ok fs ∧ _memo s !! dom fs = None ∧
     check_interfaces (elems fs) = Raise e ∧ implements args s = (Raise e, s)) ∨
  (args ≠ [] ∧ ∃ fs ifaces r s', frozenset args = Ok fs ∧
     _memo s !! dom fs = None ∧ check_interfaces (elems fs) = Ok ifaces ∧
     _memo s' = _memo s ∧
     ((∃ t, r = Ok t ∧
            implements args s
            = (Ok t, {| next_id := next_id s';
                        _memo := <[dom fs := t]> (_memo s') |})) ∨
      (∃ e, r = Raise e ∧ ifaces = [] ∧ implements args s = (Raise e, s')))).
Proof.
  unfold implements. destruct args as [|a args]; [by left|].
  right. simpl is_nil. cbv iota.
  destruct (frozenset (a :: args)) as [fs|e] eqn:Hfs.
  2:{ left. split; [done|]. eauto. }
  right. destruct (_memo s !! dom fs) as [t|] eqn:Hm.
  { left. split; [done|]. eauto 10. }
  right. destruct (check_interfaces (elems fs)) as [ifaces|e] eqn:Hc.
  2:{ left. split; [done|]. eauto 10. }
  right. split; [done|].
  match goal with
  | |- context [ImplementsMeta_call ?n ?a ?c ifaces s] =>
      pose proof (ImplementsMeta_call_memo n a c ifaces s) as Hmemo;
      assert (ifaces ≠ [] → ∃ t, (ImplementsMeta_call n a c ifaces s).1 = Ok t)
        as Hok;
      [|destruct (ImplementsMeta_call n a c ifaces s) as [[t|e] s'] eqn:Hcall]
  end.
  { intros Hne. unfold ImplementsMeta_call, ImplementsMeta_new. simpl.
    destruct ifaces; [done|]. simpl. eauto. }
  - exists fs, ifaces, (Ok t), s'. split_and!; [done..|]. left. eauto.
  - exists fs, ifaces, (Raise e), s'. split_and!; [done..|]. right.
    exists e. split_and!; [done| |done]. destruct ifaces; [done|].
    destruct Hok as [? [=]]. done.
Qed.

Lemma implements_memo_mono args s ks t :
  _memo s !! ks = Some t → _memo (implements args s).2 !! ks = Some t.
Proof.
  intros Hks.
  destruct (implements_cases args s)
    as [[_ ->]|[(_ & e & _ & ->)|[(_ & fs & t' & _ & _ & ->)
       |[(_ & fs & e & _ & _ & _ & ->)
       |(_ & fs & ifaces & r & s' & _ & Hmiss & _ & Hmemo & Hr)]]]];
    try done.
  destruct Hr as [(t' & _ & ->)|(e & _ & _ & ->)]; simpl.
  - rewrite Hmemo. rewrite lookup_insert_ne; [done|]. congruence.
  - by rewrite Hmemo.
Qed.

Lemma later_memo_mono s s' ks t :
  later s s' → _memo s !! ks = Some t → _memo s' !! ks = Some t.
Proof.
  induction 1 as [|args s' _ IH|name bases clsdict s' _ IH
                 |name ancestors clsdict s' _ IH]; intros Hks.
  - done.
  - by apply implements_memo_mono, IH.
  - rewrite InterfaceMeta_new_memo. auto.
  - rewrite ImplementsMeta_call_memo. auto.
Qed.

Lemma implements_records args s t s' :
  implements args s = (Ok t, s') →
  args ≠ [] ∧ ∃ fs, frozenset args = Ok fs ∧ _memo s' !! dom fs = Some t.
Proof.
  destruct (implements_cases args s)
    as [[_ ->]|[(_ & e & _ & ->)|[(Hne & fs & t' & Hfs & Hm & ->)
       |[(_ & fs & e & _ & _ & _ & ->)
       |(Hne & fs & ifaces & r & s1 & Hfs & _ & _ & _ & Hr)]]]];
    try done.
  - intros [= <- <-]. eauto.
  - destruct Hr as [(t' & _ & ->)|(e & _ & _ & ->)]; [|done].
    intros [= <- <-]. split; [done|]. exists fs. split; [done|].
    simpl. by rewrite lookup_insert_eq.
Qed.

Lemma implements_hit args s fs t :
  args ≠ [] → frozenset args = Ok fs → _memo s !! dom fs = Some t →
  implements args s = (Ok t, s).
Proof.
  intros Hne Hfs Hm. unfold implements.
  destruct args; [done|]. simpl is_nil. cbv iota. by rewrite Hfs, Hm.
Qed.

(** Two argument lists with the same elements are one request: once the
    first has been served, the second gets the same object, whatever the
    module did in between, and nothing is created for it. *)
Lemma implements_same_elements l1 l2 s s1 s2 t :
  implements l1 s = (Ok t, s1) →
  (∀ o, o ∈ l1 ↔ o ∈ l2) →
  later s1 s2 →
  implements l2 s2 = (Ok t, s2).
Proof.
  intros Hrun Hsame Hlater.
  apply implements_records in Hrun as (Hne & fs1 & Hfs1 & Hm).
  destruct (frozenset_total l2) as [fs2 Hfs2].
  { intros o Ho. apply Hsame in Ho.
    destruct (frozenset_dom _ _ _ Hfs1 Ho) as (k & ? & _). eauto. }
  apply (implements_hit l2 s2 fs2).
  - destruct l1 as [|o l1]; [done|]. intros ->.
    apply (elem_of_nil o), Hsame, list_elem_of_here.
  - done.
  - rewrite <- (frozenset_same_dom l1 l2 fs1 fs2) by done.
    by apply (later_memo_mono s1).
Qed.

Lemma implements_memo_inv args s :
  memo_inv s → memo_inv (implements args s).2.
Proof.
  intros Hinv.
  destruct (implements_cases args s)
    as [[_ ->]|[(_ & e & _ & ->)|[(_ & fs & t' & _ & _ & ->)
       |[(_ & fs & e & _ & _ & _ & ->)
       |(_ & fs & ifaces & r & s' & Hfs & _ & Hc & Hmemo & Hr)]]]];
    try done.
  destruct Hr as [(t' & _ & ->)|(e & _ & _ & ->)]; simpl.
  - intros ks t. simpl. destruct (decide (dom fs = ks)) as [<-|Hne].
    + intros _ k [o Ho]%elem_of_dom.
      destruct (frozenset_lookup _ _ _ _ Hfs Ho) as [Hk _].
      apply (hash_key_interface o k Hk).
      apply check_interfaces_Ok in Hc.
      assert (o ∈ elems fs) as Hin by (apply elem_of_elems; eauto).
      rewrite Hc in Hin. by apply list_elem_of_fmap in Hin as (i & -> & _).
    + rewrite lookup_insert_ne by done. rewrite Hmemo. apply Hinv.
  - intros ks t. rewrite Hmemo. apply Hinv.
Qed.

Lemma reachable_memo_inv s : reachable s → memo_inv s.
Proof.
  unfold reachable.
  induction 1 as [|args s' _ IH|name bases clsdict s' _ IH
                 |name ancestors clsdict s' _ IH].
  - intros ks t. simpl. by rewrite lookup_empty.
  - by apply implements_memo_inv.
  - intros ks t. rewrite InterfaceMeta_new_memo. apply IH.
  - intros ks t. rewrite ImplementsMeta_call_memo. apply IH.
Qed.

(** A request for interfaces only, and at least one, is always served. *)
Lemma implements_interfaces_Ok args s :
  args ≠ [] → (∀ o, o ∈ args → is_interface o = true) →
  ∃ t s', implements args s = (Ok t, s').
Proof.
  intros Hne Hall.
  destruct (implements_cases args s)
    as [[-> _]|[(_ & e & Hfs & _)|[(_ & fs & t' & _ & _ & ->)
       |[(_ & fs & e & Hfs & _ & Hc & _)
       |(_ & fs & ifaces & r & s' & Hfs & _ & Hc & _ & Hr)]]]];
    [done| |eauto| |].
  - exfalso. destruct (frozenset_total args) as [fs Hfs']; [|congruence].
    intros o Ho. apply Hall in Ho. destruct o; try done. simpl. eauto.
  - exfalso. destruct (check_interfaces_total (elems fs)) as [l Hl]; [|congruence].
    intros o [k Ho]%elem_of_elems.
    destruct (frozenset_lookup _ _ _ _ Hfs Ho) as [_ Hin]. auto.
  - destruct Hr as [(t & _ & ->)|(e & _ & -> & _)]; [eauto|].
    exfalso. apply check_interfaces_Ok in Hc. simpl in Hc.
    destruct args as [|a args]; [done|].
    destruct (frozenset_dom _ _ _ Hfs (list_elem_of_here a args))
      as (k & _ & [o Ho]%elem_of_dom).
    assert (o ∈ elems fs) as Hin by (apply elem_of_elems; eauto).
    rewrite Hc in Hin. by apply elem_of_nil in Hin.
Qed.

(** C2: once [implements] has returned a type for some interfaces, every
    later call with the same interfaces in any argument order returns that
    very object (the type made at the first call, with its identity), and
    creates nothing. *)
Theorem implements_order_independent l1 l2 s s1 s2 t :
  implements l1 s = (Ok t, s1) →
  l1 ≡ₚ l2 →
  later s1 s2 →
  implements l2 s2 = (Ok t, s2).
Proof.
  intros Hrun Hperm. apply (implements_same_elements l1 l2 s s1); [done|].
  intros o. by rewrite Hperm.
Qed.

(** C10: passing one interface any number of times is passing it once.
    The argument list becomes a set before the table is consulted, so a
    call with [m + 1] copies returns the very object that an earlier call
    with [n + 1] copies returned. *)
Theorem implements_repeated_argument iface n m s :
  frozenset (replicate (S n) (OInterface iface))
  = frozenset (replicate (S m) (OInterface iface)) ∧
  ∃ t, (implements (replicate (S n) (OInterface iface)) s).1 = Ok t ∧
    ∀ s2, later (implements (replicate (S n) (OInterface iface)) s).2 s2 →
      implements (replicate (S m) (OInterface iface)) s2 = (Ok t, s2).
Proof.
  split.
  - assert (∀ j, frozenset (replicate (S j) (OInterface iface))
                 = Ok {[ inl (i_id iface) := OInterface iface ]}) as Hone.
    { induction j as [|j IH]; [done|].
      change (replicate (S (S j)) (OInterface iface))
        with (OInterface iface :: replicate (S j) (OInterface iface)).
      cbn [frozenset]. rewrite IH. simpl. f_equal.
      apply insert_singleton_eq. }
    by rewrite !Hone.
  - destruct (implements_interfaces_Ok
                (replicate (S n) (OInterface iface)) s) as (t & s1 & Hrun).
    { done. }
    { intros o Ho. apply elem_of_replicate in Ho as [-> _]. done. }
    assert (∀ o, o ∈ replicate (S n) (OInterface iface)
                 ↔ o ∈ replicate (S m) (OInterface iface)) as Hsame.
    { intros o. rewrite !elem_of_replicate. split; intros [-> _]; done. }
    exists t. rewrite Hrun. split; [done|]. intros s2 Hlater.
    by apply (implements_same_elements _ _ s s1 s2 t Hrun).
Qed.

(** C7: [implements] with no argument raises [TypeError]; with an argument
    that is not an interface class it raises [TypeError]; with interface
    classes only, and at least one, it returns a type. *)
Theorem implements_outcome args s :
  reachable s →
  (args = [] →
   implements args s
   = (Raise (TypeError "implements() requires at least one interface"), s)) ∧
  ((∃ o, o ∈ args ∧ is_interface o = false) →
   ∃ msg, implements args s = (Raise (TypeError msg), s)) ∧
  (args ≠ [] → (∀ o, o ∈ args → is_interface o = true) →
   ∃ t s', implements args s = (Ok t, s')).
Proof.
  intros Hreach. apply reachable_memo_inv in Hreach. split_and!.
  - by intros ->.
  - intros (o & Hin & Hno).
    destruct (implements_cases args s)
      as [[-> _]|[(_ & e & Hfs & ->)|[(_ & fs & t' & Hfs & Hm & _)
         |[(_ & fs & e & Hfs & _ & Hc & ->)
         |(_ & fs & ifaces & r & s' & Hfs & _ & Hc & _ & _)]]]].
    + by apply elem_of_nil in Hin.
    + destruct (frozenset_raise _ _ Hfs) as [msg ->]. eauto.
    + exfalso. destruct (frozenset_dom _ _ _ Hfs Hin) as (k & Hk & Hdom).
      destruct (Hreach _ _ Hm k Hdom) as [id ->].
      apply (hash_key_interface o) in Hk. destruct Hk as [_ Hk].
      rewrite Hk in Hno by eauto. done.
    + destruct (check_interfaces_raise _ _ Hc) as [msg ->]. eauto.
    + exfalso. destruct (frozenset_dom _ _ _ Hfs Hin) as (k & Hk & Hdom).
      apply elem_of_dom in Hdom as [o' Ho'].
      destruct (frozenset_lookup _ _ _ _ Hfs Ho') as [Hk' _].
      assert (o' ∈ elems fs) as Hin' by (apply elem_of_elems; eauto).
      apply check_interfaces_Ok in Hc. rewrite Hc in Hin'.
      apply list_elem_of_fmap in Hin' as (i & -> & _).
      simpl in Hk'. injection Hk' as <-.
      apply (hash_key_interface o) in Hk. destruct Hk as [_ Hk].
      rewrite Hk in Hno by eauto. done.
  - apply implements_interfaces_Ok.
Qed.
End implements_facts.

(** ** Conflicting defaults *)

Section conflict_facts.
Context `{R : Runtime}.
Local Open Scope list_scope.






(** The first request for a pair of interfaces makes a base that stores
    both, in the iteration order of the set. *)
Lemma implements_fresh_pair a b s :
  i_id a ≠ i_id b →
  _memo s !! ({[inl (i_id a); inl (i_id b)]} : gset objkey) = None →
  ∃ base s1 ifaces,
    implements [OInterface a; OInterface b] s = (Ok base, s1) ∧
    (ifaces = [a; b] ∨ ifaces = [b; a]) ∧
    ty_interfaces base = Some ifaces ∧
    ty_implements_meta base = true ∧
    ty_ancestors base = [object_].
Proof.
  intros Hne Hmiss. unfold implements. simpl frozenset. simpl is_nil.
  cbv iota.
  assert (dom (<[inl (i_id a) := OInterface a]>
                 (<[inl (i_id b) := OInterface b]> (∅ : gmap objkey pyobj)))
          = ({[inl (i_id a); inl (i_id b)]} : gset objkey)) as ->.
  { rewrite !dom_insert_L, dom_empty_L. set_solver. }
  rewrite Hmiss.
  assert (elems (<[inl (i_id a) := OInterface a]>
                   (<[inl (i_id b) := OInterface b]> ∅))
          = [OInterface a; OInterface b] ∨
          elems (<[inl (i_id a) := OInterface a]>
                   (<[inl (i_id b) := OInterface b]> ∅))
          = [OInterface b; OInterface a]) as Helems.
  { unfold elems.
    assert (map_to_list (<[inl (i_id a) := OInterface a]>
              (<[inl (i_id b) := OInterface b]> (∅ : gmap objkey pyobj)))
            ≡ₚ [(inl (i_id a), OInterface a); (inl (i_id b), OInterface b)])
      as Hperm.
    { rewrite map_to_list_insert.
      - by rewrite insert_empty, map_to_list_singleton.
      - rewrite lookup_insert_ne by congruence. apply lookup_empty. }
    symmetry in Hperm. apply Permutation_length_2_inv in Hperm as [-> | ->];
      auto. }
  destruct Helems as [-> | ->]; simpl.
  - eexists _, _, [a; b]. split_and!; [done|auto|done..].
  - eexists _, _, [b; a]. split_and!; [done|auto|done..].
Qed.

End conflict_facts.

(** ** The engine on the sample runtime *)

Section demo_facts.
Import Demo.
Local Open Scope list_scope.


Lemma implements_order_independent_witness :
  implements [OInterface iface3; OInterface iface1] state13
  = (Ok base13, state13).
Proof.
  apply (implements_order_independent
           [OInterface iface1; OInterface iface3]
           [OInterface iface3; OInterface iface1] declared state13 state13).
  - vm_compute. reflexivity.
  - apply Permutation_swap.
  - apply later_refl.
Defined.

Lemma implements_repeated_argument_witness :
  ∃ t, (implements [OInterface iface1] declared).1 = Ok t ∧
    implements [OInterface iface1; OInterface iface1]
      (implements [OInterface iface1] declared).2
    = (Ok t, (implements [OInterface iface1] declared).2).
Proof.
  destruct (implements_repeated_argument iface1 0 1 declared)
    as (_ & t & Ht & Hlater).
  exists t. split; [exact Ht|]. apply Hlater. apply later_refl.
Defined.

Lemma implements_outcome_witness :
  ∃ msg, implements [OInterface iface1; OClass 9 "<class 'int'>"] declared
         = (Raise (TypeError msg), declared).
Proof.
  destruct (implements_outcome
              [OInterface iface1; OClass 9 "<class 'int'>"] declared)
    as (_ & Hbad & _).
  - change declared
      with (declare "I2" [("m", shared_default)]
              (declare "I1" [("m", shared_default)] initial_state).2).2.
    unfold declare. apply later_interface, later_interface, later_refl.
  - apply Hbad. exists (OClass 9 "<class 'int'>"). split; [|reflexivity].
    apply list_elem_of_further, list_elem_of_here.
Defined.

Lemma verify_identical_signatures_witness : verify shape circle = Ok [].
Proof.
  apply (verify_identical_signatures (R := runtime) shape circle).
  - intros k. simpl. by apply bool_decide_eq_true_2.
  - intros sig. simpl. by apply bool_decide_eq_true_2.
  - intros name sig [[= -> ->]|[= -> ->]%list_elem_of_singleton]%elem_of_cons;
      eexists; split; reflexivity.
Defined.

Lemma verify_resolves_default_witness :
  ∃ resolved, verify shape disc = Ok resolved ∧
              dict_get "name" resolved = Some (VFunction ["self"]).
Proof.
  apply (verify_resolves_default (R := runtime) shape disc "name"
           (VFunction ["self"])).
  - apply list_elem_of_further, list_elem_of_here.
  - split; [reflexivity|]. eexists. split; reflexivity.
  - intros name sig [[= -> ->]|[= -> ->]%list_elem_of_singleton]%elem_of_cons
      Hne; [|done].
    left. eexists _, _. repeat split; reflexivity.
Defined.

(** C5, refuted as stated: [area] of [Square] is present, of the wrong
    kind and of an incompatible shape, and the diff lists it under
    [mismatched] and under [mistyped] at once. *)
Lemma mismatched_also_mistyped :
  _diff_signatures shape square
  = Ok ([], [("area", KStaticmethod)], [("area", (KStaticmethod, ["x"; "y"]))])
  ∧ "area" ∈ keys [("area", (KStaticmethod, ["x"; "y"]))]
  ∧ "area" ∈ keys [("area", KStaticmethod)].
Proof. split_and!; [reflexivity|apply list_elem_of_here..]. Qed.

Lemma mismatched_present_incompatible_witness :
  ("area" ∉ ([] : list string)) ∧
  ∃ iface_sig f impl_sig,
    (("area", iface_sig) : string * typed_signature) ∈ _signatures shape ∧
    static_get_type_attr square "area" = Some f ∧
    TypedSignature f = Ok impl_sig ∧
    dict_get "area" [("area", (KStaticmethod, ["x"; "y"]))] = Some impl_sig ∧
    compatible impl_sig.2 iface_sig.2 = false.
Proof.
  apply (mismatched_present_incompatible (R := runtime) shape square []
           [("area", KStaticmethod)]).
  - reflexivity.
  - apply list_elem_of_here.
Defined.

Lemma defaults_within_signatures_witness : "m" ∈ keys (_signatures iface1).
Proof.
  apply (defaults_within_signatures (R := runtime) "I1" []
           [("m", shared_default)] initial_state iface1
           {| next_id := 3; _memo := ∅ |}).
  - vm_compute. reflexivity.
  - apply list_elem_of_here.
Defined.
End demo_facts.

(** * Further properties *)

(** ** Static lookup and interface construction *)

Section lookup_facts.
Context `{R : Runtime}.
Local Open Scope list_scope.

Lemma static_lookup_Some name types v :
  static_lookup name types = Some v ↔
  ∃ before c after,
    types = before ++ c :: after ∧
    dict_get name (ty_vars c) = Some v ∧
    ∀ c', c' ∈ before → dict_get name (ty_vars c') = None.
Proof.
  induction types as [|t types IH]; simpl.
  - split; [done|]. intros (before & c & after & Heq & _).
    by destruct before.
  - destruct (dict_get name (ty_vars t)) as [v'|] eqn:Ht.
    + split.
      * intros [= ->]. exists [], t, types. split_and!; [done..|].
        intros c' Hc'. by apply elem_of_nil in Hc'.
      * intros (before & c & after & Heq & Hc & Hbefore).
        destruct before as [|b before]; simpl in Heq.
        -- injection Heq as -> ->. congruence.
        -- injection Heq as -> ->.
           rewrite Hbefore in Ht by apply list_elem_of_here. done.
    + rewrite IH. split.
      * intros (before & c & after & -> & Hc & Hbefore).
        exists (t :: before), c, after. split_and!; [done..|].
        intros c' [->|Hc']%elem_of_cons; auto.
      * intros (before & c & after & Heq & Hc & Hbefore).
        destruct before as [|b before]; simpl in Heq.
        -- injection Heq as -> ->. congruence.
        -- injection Heq as -> ->. exists before, c, after.
           split_and!; [done..|]. intros c' Hc'. apply Hbefore.
           by apply list_elem_of_further.
Qed.

Lemma static_lookup_None name types :
  static_lookup name types = None ↔
  ∀ c, c ∈ types → dict_get name (ty_vars c) = None.
Proof.
  induction types as [|t types IH]; simpl.
  - split; [|done]. intros _ c Hc. by apply elem_of_nil in Hc.
  - destruct (dict_get name (ty_vars t)) as [v'|] eqn:Ht.
    + split; [done|]. intros Hall.
      rewrite Hall in Ht by apply list_elem_of_here. done.
    + rewrite IH. split.
      * intros Hall c [->|Hc]%elem_of_cons; auto.
      * intros Hall c Hc. apply Hall. by apply list_elem_of_further.
Qed.

(** X1: [static_get_type_attr] returns the raw value stored by the first
    class of the ancestry chain (the class itself first) that has the
    name in its own namespace, and finds nothing exactly when no class of
    the chain has it. *)
Theorem static_get_type_attr_first t name :
  (∀ v, static_get_type_attr t name = Some v ↔
     ∃ before c after,
       mro t = before ++ c :: after ∧
       dict_get name (ty_vars c) = Some v ∧
       ∀ c', c' ∈ before → dict_get name (ty_vars c') = None) ∧
  (static_get_type_attr t name = None ↔
     ∀ c, c ∈ mro t → dict_get name (ty_vars c) = None).
Proof.
  unfold static_get_type_attr. split.
  - intros v. apply static_lookup_Some.
  - apply static_lookup_None.
Qed.

(** An attribute set on a class is what static lookup then finds under
    that name, ahead of every ancestor, and the lookup of every other name
    is unchanged. *)
Lemma static_get_type_attr_setattr t name v name' :
  static_get_type_attr (setattr t name v) name'
  = if decide (name' = name) then Some v else static_get_type_attr t name'.
Proof.
  unfold static_get_type_attr, mro, setattr. simpl.
  destruct (decide (name' = name)) as [->|Hne].
  - by rewrite dict_get_set_eq.
  - by rewrite dict_get_set_ne.
Qed.
End lookup_facts.

Section construction_facts.
Context `{R : Runtime}.
Local Open Scope list_scope.

Lemma dict_comp_keys {V} (keep : string → V → bool) items k :
  k ∈ keys (dict_comp keep items) →
  ∃ v, (k, v) ∈ items ∧ keep k v = true.
Proof.
  unfold dict_comp.
  enough (∀ acc,
    k ∈ keys (foldl (λ acc kv, if keep kv.1 kv.2
                                then dict_set kv.1 kv.2 acc else acc)
                acc items) →
    k ∈ keys acc ∨ ∃ v, (k, v) ∈ items ∧ keep k v = true) as H.
  { intros Hk. destruct (H [] Hk) as [Hnil|?]; [|done].
    by apply elem_of_nil in Hnil. }
  induction items as [|[k0 v0] items IH]; simpl; intros acc Hk; [by left|].
  apply IH in Hk as [Hk|(v & Hin & Hkeep)].
  - destruct (keep k0 v0) eqn:Hkeep; [|by left].
    apply keys_dict_set in Hk as [->|Hk]; [|by left].
    right. exists v0. split; [apply list_elem_of_here|done].
  - right. exists v. split; [by apply list_elem_of_further|done].
Qed.

Lemma collect_fields_sound name items sigs defs sigs' defs' :
  collect_fields name items sigs defs = Ok (sigs', defs') →
  (∀ k, k ∈ keys sigs' → k ∈ keys sigs ∨ k ∈ keys items) ∧
  ((∀ k d, dict_get k defs = Some d → is_Some (as_default d)) →
   ∀ k d, dict_get k defs' = Some d → is_Some (as_default d)).
Proof.
  revert sigs defs. induction items as [|[k0 v0] items IH]; simpl;
    intros sigs defs.
  - intros [= -> ->]. split; [by left|done].
  - destruct (TypedSignature v0) as [sig|e]; [|by destruct (is_TypeError e)].
    intros Hrun. apply IH in Hrun as [Hk Hd]. split.
    + intros k Hin. apply Hk in Hin as [Hin|Hin].
      * apply keys_dict_set in Hin as [->|Hin]; [|by left].
        right. unfold keys. simpl. apply list_elem_of_here.
      * right. unfold keys. simpl. by apply list_elem_of_further.
    + intros Hwf. apply Hd. destruct (as_default v0) as [impl|] eqn:Hdef; [|done].
      intros k d. destruct (decide (k = k0)) as [->|Hne].
      * rewrite dict_get_set_eq. intros [= <-]. by rewrite Hdef.
      * rewrite dict_get_set_ne by done. apply Hwf.
Qed.

(** X2: whatever the class body, a definition that [InterfaceMeta.__new__]
    returns carries the declared name and a fresh identity, leaves the
    memo table alone, has signatures only for names of the body outside
    the whitelist, and stores as defaults only instances of [default]. *)
Theorem interface_definition_sound name bases clsdict s iface s' :
  InterfaceMeta_new name bases clsdict s = (Ok iface, s') →
  i_name iface = name ∧ i_id iface = next_id s ∧
  s' = {| next_id := Pos.succ (next_id s); _memo := _memo s |} ∧
  (∀ k, k ∈ keys (_signatures iface) →
        (k ∉ CLASS_ATTRIBUTE_WHITELIST) ∧ k ∈ keys clsdict) ∧
  defaults_wf iface.
Proof.
  unfold InterfaceMeta_new.
  destruct (collect_fields name _ [] []) as [[sigs defs]|e] eqn:Hrun; [|done].
  simpl. intros [= <- <-]. simpl. split_and!; [done..| |].
  - intros k Hk. apply collect_fields_sound in Hrun as [Hkeys _].
    apply Hkeys in Hk as [Hk|Hk]; [by apply elem_of_nil in Hk|].
    apply dict_comp_keys in Hk as (v & Hin & Hkeep).
    unfold is_interface_field_name, complement in Hkeep.
    apply negb_true_iff, bool_decide_eq_false in Hkeep. split; [done|].
    unfold keys. by apply (list_elem_of_fmap_2 fst) in Hin.
  - unfold defaults_wf. simpl.
    apply collect_fields_sound in Hrun as [_ Hd]. apply Hd. done.
Qed.


End construction_facts.

(** ** The diff and the verdict of [verify] *)

Section diff_facts.
Context `{R : Runtime}.
Local Open Scope list_scope.

Lemma diff_loop_missing type_ items missing mistyped mismatched
    missing' mistyped' mismatched' :
  diff_loop type_ items missing mistyped mismatched
  = Ok (missing', mistyped', mismatched') →
  missing' = missing ++ filter (λ n, lacks type_ n = true) (keys items).
Proof.
  revert missing mistyped mismatched.
  induction items as [|[name sig] items IH]; simpl;
    intros missing mistyped mismatched.
  - intros [= <- _ _]. by rewrite app_nil_r.
  - unfold keys. simpl. rewrite filter_cons.
    destruct (static_get_type_attr type_ name) as [f|] eqn:Hget.
    + destruct (TypedSignature f) as [impl|e]; [|done].
      intros Hrun. rewrite decide_False; [by apply IH in Hrun|].
      unfold lacks. by rewrite Hget.
    + intros Hrun. rewrite decide_True by (unfold lacks; by rewrite Hget).
      apply IH in Hrun. by rewrite Hrun, <- app_assoc.
Qed.

(** X4: the missing names of a diff are exactly the declared names that
    the candidate has nowhere in its ancestry, in declaration order. *)
Theorem diff_missing_exact self type_ missing mistyped mismatched :
  _diff_signatures self type_ = Ok (missing, mistyped, mismatched) →
  missing = filter (λ n, lacks type_ n = true) (keys (_signatures self)).
Proof.
  unfold _diff_signatures. intros Hrun.
  by apply diff_loop_missing in Hrun.
Qed.

Lemma diff_loop_mistyped type_ all items missing mistyped mismatched
    missing' mistyped' mismatched' :
  (∀ x, x ∈ items → x ∈ all) →
  diff_loop type_ items missing mistyped mismatched
  = Ok (missing', mistyped', mismatched') →
  (∀ n k, dict_get n mistyped = Some k → wrong_kind all type_ n k) →
  ∀ n k, dict_get n mistyped' = Some k → wrong_kind all type_ n k.
Proof.
  revert missing mistyped mismatched.
  induction items as [|[name sig] items IH]; simpl;
    intros missing mistyped mismatched Hsub.
  - intros [= _ -> _]. done.
  - assert (∀ x, x ∈ items → x ∈ all) as Hsub'.
    { intros x Hx. apply Hsub. by apply list_elem_of_further. }
    destruct (static_get_type_attr type_ name) as [f|] eqn:Hget;
      [|by apply IH].
    destruct (TypedSignature f) as [impl|e] eqn:Hts; [|done].
    intros Hrun Hinv. eapply IH; [done|exact Hrun|].
    intros n k. destruct (issubclass impl.1 sig.1) eqn:Hk; [apply Hinv|].
    destruct (decide (n = name)) as [->|Hne].
    + rewrite dict_get_set_eq. intros [= <-]. exists sig, f, impl.
      split_and!; [apply Hsub, list_elem_of_here|done..].
    + rewrite dict_get_set_ne by done. apply Hinv.
Qed.

(** What a diff that returns says of every declared member the candidate
    has: its value was normalised, and a failed kind or shape test left
    the name in the corresponding mapping. *)
Lemma diff_loop_complete type_ items missing mistyped mismatched
    missing' mistyped' mismatched' :
  diff_loop type_ items missing mistyped mismatched
  = Ok (missing', mistyped', mismatched') →
  (∀ n, n ∈ keys mistyped → n ∈ keys mistyped') ∧
  (∀ n, n ∈ keys mismatched → n ∈ keys mismatched') ∧
  ∀ name iface_sig f,
    (name, iface_sig) ∈ items → static_get_type_attr type_ name = Some f →
    ∃ impl_sig, TypedSignature f = Ok impl_sig ∧
      (issubclass impl_sig.1 iface_sig.1 = false → name ∈ keys mistyped') ∧
      (compatible impl_sig.2 iface_sig.2 = false → name ∈ keys mismatched').
Proof.
  revert missing mistyped mismatched.
  induction items as [|[name0 sig0] items IH]; simpl;
    intros missing mistyped mismatched.
  - intros [= _ -> ->]. split_and!; [done..|].
    intros ??? Hin. by apply elem_of_nil in Hin.
  - destruct (static_get_type_attr type_ name0) as [f0|] eqn:Hget.
    + destruct (TypedSignature f0) as [impl|e] eqn:Hts; [|done].
      intros Hrun. apply IH in Hrun as (Hmt & Hmm & Hall).
      assert (∀ n, n ∈ keys mistyped → n ∈ keys mistyped') as Hmt'.
      { intros n Hn. apply Hmt. destruct (issubclass _ _); [done|].
        apply keys_dict_set. by right. }
      assert (∀ n, n ∈ keys mismatched → n ∈ keys mismatched') as Hmm'.
      { intros n Hn. apply Hmm. destruct (compatible _ _); [done|].
        apply keys_dict_set. by right. }
      split_and!; [done..|].
      intros name iface_sig f [[= -> ->]|Hin]%elem_of_cons Hf; [|eauto].
      rewrite Hget in Hf. injection Hf as <-. exists impl.
      split_and!; [done| |].
      * intros Hk. apply Hmt. rewrite Hk. apply keys_dict_set. by left.
      * intros Hc. apply Hmm. rewrite Hc. apply keys_dict_set. by left.
    + intros Hrun. apply IH in Hrun as (Hmt & Hmm & Hall).
      split_and!; [done..|].
      intros name iface_sig f [[= -> ->]|Hin]%elem_of_cons Hf; [|eauto].
      congruence.
Qed.

Lemma diff_mistyped_sound self type_ missing mistyped mismatched name k :
  _diff_signatures self type_ = Ok (missing, mistyped, mismatched) →
  dict_get name mistyped = Some k →
  wrong_kind (_signatures self) type_ name k.
Proof.
  unfold _diff_signatures. intros Hrun.
  apply (diff_loop_mistyped type_ (_signatures self) (_signatures self)
           [] [] [] _ _ _ (λ _ H, H) Hrun).
  intros ? ? [=].
Qed.

(** X5: a name in the [mistyped] mapping of a diff is a declared member
    that the candidate has, mapped to the kind of the candidate's member,
    and that kind is not a subclass of a kind declared for the name. *)
Theorem mistyped_present_wrong_kind self type_ missing mistyped mismatched
    name :
  _diff_signatures self type_ = Ok (missing, mistyped, mismatched) →
  name ∈ keys mistyped →
  (name ∉ missing) ∧
  ∃ iface_sig f impl_sig,
    (name, iface_sig) ∈ _signatures self ∧
    static_get_type_attr type_ name = Some f ∧
    TypedSignature f = Ok impl_sig ∧
    dict_get name mistyped = Some impl_sig.1 ∧
    issubclass impl_sig.1 iface_sig.1 = false.
Proof.
  intros Hrun Hname. apply dict_get_Some_keys in Hname as [k Hk].
  destruct (diff_mistyped_sound _ _ _ _ _ _ _ Hrun Hk)
    as (iface_sig & f & impl_sig & Hin & Hf & Hts & -> & Hsub).
  unfold _diff_signatures in Hrun. apply diff_loop_missing in Hrun as ->.
  split.
  - intros [Hl _]%list_elem_of_filter. unfold lacks in Hl. by rewrite Hf in Hl.
  - exists iface_sig, f, impl_sig. done.
Qed.

(** X6: no violation escapes the diff.  A declared member that the
    candidate has is recorded under [mistyped], with its kind, when that
    kind is not a subclass of the declared one, and under [mismatched],
    with its signature, when its shape is not compatible with the
    declared one. *)
Theorem diff_records_violations self type_ missing mistyped mismatched
    name iface_sig f impl_sig :
  _diff_signatures self type_ = Ok (missing, mistyped, mismatched) →
  (name, iface_sig) ∈ _signatures self →
  static_get_type_attr type_ name = Some f →
  TypedSignature f = Ok impl_sig →
  (issubclass impl_sig.1 iface_sig.1 = false →
   dict_get name mistyped = Some impl_sig.1) ∧
  (compatible impl_sig.2 iface_sig.2 = false →
   dict_get name mismatched = Some impl_sig).
Proof.
  intros Hrun Hin Hf Hts.
  pose proof Hrun as Hrun'. unfold _diff_signatures in Hrun'.
  destruct (diff_loop_complete _ _ _ _ _ _ _ _ Hrun') as (_ & _ & Hall).
  destruct (Hall name iface_sig f Hin Hf) as (impl' & Hts' & Hk & Hc).
  assert (impl' = impl_sig) as -> by congruence.
  split.
  - intros Hsub. apply Hk, dict_get_Some_keys in Hsub as [k Hget].
    destruct (diff_mistyped_sound _ _ _ _ _ _ _ Hrun Hget)
      as (? & f' & impl'' & _ & Hf' & Hts'' & -> & _).
    rewrite Hget. congruence.
  - intros Hcompat. apply Hc, dict_get_Some_keys in Hcompat as [k Hget].
    destruct (diff_loop_inv type_ (_signatures self) (_signatures self)
                [] [] [] missing mistyped mismatched) as [_ Hmism];
      [done|done| |].
    { split; [|done]. intros n Hn. by apply elem_of_nil in Hn. }
    destruct (Hmism name k Hget) as (? & f' & _ & Hf' & Hts'' & _).
    rewrite Hget. rewrite Hf in Hf'. injection Hf' as <-.
    rewrite Hts in Hts''. by injection Hts'' as <-.
Qed.
End diff_facts.

Section verdict_facts.
Context `{R : Runtime}.
Local Open Scope list_scope.

Lemma resolve_defaults_spec self raw missing acc missing' resolved :
  resolve_defaults self raw missing acc = Ok (missing', resolved) →
  missing' = missing ++ filter (λ n, no_default self n = true) raw ∧
  (∀ n, n ∈ raw → no_default self n = false →
     ∃ d impl, dict_get n (_defaults self) = Some d ∧
               as_default d = Some impl ∧ dict_get n resolved = Some impl) ∧
  (∀ n, n ∈ keys resolved →
        n ∈ keys acc ∨ (n ∈ raw ∧ no_default self n = false)) ∧
  (∀ n, n ∉ raw → dict_get n resolved = dict_get n acc).
Proof.
  revert missing acc. induction raw as [|name raw IH]; simpl;
    intros missing acc.
  - intros [= <- <-]. rewrite app_nil_r. split_and!; [done| |by left|done].
    intros n Hn. by apply elem_of_nil in Hn.
  - rewrite filter_cons.
    destruct (dict_get name (_defaults self)) as [d|] eqn:Hd.
    + destruct (as_default d) as [impl|] eqn:Himpl; [|done].
      intros Hrun. apply IH in Hrun as (-> & Hin & Hkeys & Hout).
      rewrite decide_False by (unfold no_default; by rewrite Hd).
      split_and!; [done| | |].
      * intros n Hn Hdef. destruct (decide (n ∈ raw)) as [Hr|Hr]; [eauto|].
        apply elem_of_cons in Hn as [->|Hn]; [|done].
        exists d, impl. split_and!; [done..|].
        rewrite Hout by done. apply dict_get_set_eq.
      * intros n Hn. apply Hkeys in Hn as [Hn|[Hn Hdef]].
        -- apply keys_dict_set in Hn as [->|Hn]; [|by left].
           right. split; [apply list_elem_of_here|].
           unfold no_default. by rewrite Hd.
        -- right. split; [by apply list_elem_of_further|done].
      * intros n [Hne Hn]%not_elem_of_cons. rewrite Hout by done.
        by apply dict_get_set_ne.
    + intros Hrun. apply IH in Hrun as (-> & Hin & Hkeys & Hout).
      rewrite decide_True by (unfold no_default; by rewrite Hd).
      rewrite <- app_assoc. split_and!; [done| | |].
      * intros n [->|Hn]%elem_of_cons Hdef; [|eauto].
        unfold no_default in Hdef. by rewrite Hd in Hdef.
      * intros n Hn. apply Hkeys in Hn as [Hn|[Hn Hdef]]; [by left|].
        right. split; [by apply list_elem_of_further|done].
      * intros n [Hne Hn]%not_elem_of_cons. by apply Hout.
Qed.

Lemma resolve_defaults_total self raw missing acc :
  defaults_wf self →
  ∃ resolved,
    resolve_defaults self raw missing acc
    = Ok (missing ++ filter (λ n, no_default self n = true) raw, resolved).
Proof.
  intros Hwf. revert missing acc. induction raw as [|name raw IH]; simpl;
    intros missing acc.
  - exists acc. by rewrite app_nil_r.
  - rewrite filter_cons.
    destruct (dict_get name (_defaults self)) as [d|] eqn:Hd.
    + destruct (Hwf name d Hd) as [impl ->].
      rewrite decide_False by (unfold no_default; by rewrite Hd). apply IH.
    + rewrite decide_True by (unfold no_default; by rewrite Hd).
      destruct (IH (missing ++ [name]) acc) as [res ->].
      exists res. by rewrite <- app_assoc.
Qed.

(** What a successful [verify] went through. *)
Lemma verify_Ok_inv self type_ resolved :
  verify self type_ = Ok resolved →
  ∃ raw,
    _diff_signatures self type_ = Ok (raw, [], []) ∧
    resolve_defaults self raw [] [] = Ok ([], resolved).
Proof.
  unfold verify.
  destruct (_diff_signatures self type_) as [[[raw mt] mm]|]; [|done].
  destruct (resolve_defaults self raw [] []) as [[missing res]|] eqn:Hres;
    [|done].
  destruct missing, mt, mm; simpl; try done. intros [= <-].
  exists raw. done.
Qed.

(** X7: [verify] accepts conforming candidates only.  When it returns,
    every declared member is either implemented by the candidate with an
    accepted kind and a compatible shape, or absent from the candidate and
    covered by a default of the interface. *)
Theorem verify_sound self type_ resolved :
  verify self type_ = Ok resolved →
  ∀ name sig, (name, sig) ∈ _signatures self →
              member_ok self type_ name sig.
Proof.
  intros (raw & Hdiff & Hres)%verify_Ok_inv name sig Hin.
  pose proof Hdiff as Hdiff'. unfold _diff_signatures in Hdiff'.
  destruct (static_get_type_attr type_ name) as [f|] eqn:Hf.
  - left. destruct (diff_loop_complete _ _ _ _ _ _ _ _ Hdiff')
      as (_ & _ & Hall).
    destruct (Hall name sig f Hin Hf) as (impl & Hts & Hk & Hc).
    exists f, impl. split_and!; [done..| |].
    + destruct (issubclass impl.1 sig.1); [done|].
      specialize (Hk eq_refl). by apply elem_of_nil in Hk.
    + destruct (compatible impl.2 sig.2); [done|].
      specialize (Hc eq_refl). by apply elem_of_nil in Hc.
  - right. apply diff_loop_missing in Hdiff'. simpl in Hdiff'.
    apply resolve_defaults_spec in Hres as (Hmiss & Hdef & _).
    simpl in Hmiss. symmetry in Hmiss.
    assert (name ∈ raw) as Hraw.
    { rewrite Hdiff'. apply list_elem_of_filter. split.
      - unfold lacks. by rewrite Hf.
      - unfold keys. by apply (list_elem_of_fmap_2 fst) in Hin. }
    destruct (no_default self name) eqn:Hno.
    + exfalso. apply (elem_of_nil name). rewrite <- Hmiss.
      apply list_elem_of_filter. done.
    + destruct (Hdef name Hraw Hno) as (d & impl & ? & ? & _).
      exists impl. split; [done|]. eauto.
Qed.

(** X8: the mapping that [verify] returns has an entry exactly for the
    declared members that the candidate lacks, each taken to the
    implementation of the interface's default for it; a member that the
    candidate has is never in it. *)
Theorem verify_resolved_exact self type_ resolved :
  verify self type_ = Ok resolved →
  (∀ n, n ∈ keys resolved ↔
        n ∈ keys (_signatures self) ∧ lacks type_ n = true) ∧
  (∀ n impl, dict_get n resolved = Some impl →
     ∃ d, dict_get n (_defaults self) = Some d ∧ as_default d = Some impl).
Proof.
  intros (raw & Hdiff & Hres)%verify_Ok_inv.
  unfold _diff_signatures in Hdiff. apply diff_loop_missing in Hdiff.
  simpl in Hdiff.
  apply resolve_defaults_spec in Hres as (Hmiss & Hdef & Hkeys & _).
  simpl in Hmiss. symmetry in Hmiss.
  assert (∀ n, n ∈ raw → no_default self n = false) as Hcov.
  { intros n Hn. destruct (no_default self n) eqn:Hno; [|done].
    exfalso. apply (elem_of_nil n). rewrite <- Hmiss.
    apply list_elem_of_filter. done. }
  split.
  - intros n. split.
    + intros Hn. apply Hkeys in Hn as [Hn|[Hn _]];
        [by apply elem_of_nil in Hn|].
      rewrite Hdiff in Hn. apply list_elem_of_filter in Hn. tauto.
    + intros [Hn Hl]. apply dict_get_Some_keys.
      assert (n ∈ raw) as Hraw.
      { rewrite Hdiff. by apply list_elem_of_filter. }
      destruct (Hdef n Hraw (Hcov n Hraw)) as (d & impl & _ & _ & ->). eauto.
  - intros n impl Hget.
    assert (n ∈ raw) as Hraw.
    { destruct (Hkeys n) as [Hn|[Hn _]]; [|by apply elem_of_nil in Hn|done].
      apply dict_get_Some_keys. eauto. }
    destruct (Hdef n Hraw (Hcov n Hraw)) as (d & impl' & ? & ? & Hget').
    exists d. split; [done|]. congruence.
Qed.

Lemma diff_loop_clean type_ items missing :
  (∀ name sig, (name, sig) ∈ items →
     implemented sig type_ name ∨ lacks type_ name = true) →
  diff_loop type_ items missing [] []
  = Ok (missing ++ filter (λ n, lacks type_ n = true) (keys items), [], []).
Proof.
  revert missing. induction items as [|[name sig] items IH]; simpl;
    intros missing Hok.
  - by rewrite app_nil_r.
  - assert (∀ name' sig', (name', sig') ∈ items →
      implemented sig' type_ name' ∨ lacks type_ name' = true) as Hrest.
    { intros ?? Hin. apply Hok. by apply list_elem_of_further. }
    unfold keys. simpl. rewrite filter_cons.
    destruct (Hok name sig) as [(f & impl & Hget & Hts & Hk & Hc)|Hl];
      [apply list_elem_of_here| |].
    + rewrite Hget, Hts, Hk, Hc.
      rewrite decide_False by (unfold lacks; by rewrite Hget). by apply IH.
    + rewrite decide_True by done. unfold lacks in Hl.
      destruct (static_get_type_attr type_ name); [done|].
      rewrite IH by done. by rewrite <- app_assoc.
Qed.

Lemma filter_uncovered self type_ (l : list string) :
  filter (λ n, no_default self n = true) (filter (λ n, lacks type_ n = true) l)
  = filter (λ n, uncovered self type_ n = true) l.
Proof.
  induction l as [|n l IH]; [done|].
  assert (uncovered self type_ n = lacks type_ n && no_default self n) as Hu
    by done.
  rewrite !filter_cons.
  destruct (decide (lacks type_ n = true)) as [Hl|Hl];
    destruct (decide (uncovered self type_ n = true)) as [Hun|Hun].
  - rewrite filter_cons, decide_True; [by rewrite IH|].
    rewrite Hu, Hl in Hun. done.
  - rewrite filter_cons, decide_False; [done|].
    intros Hn. apply Hun. by rewrite Hu, Hl, Hn.
  - exfalso. apply Hl. rewrite Hu in Hun. by apply andb_true_iff in Hun as [? _].
  - done.
Qed.

(** X9: when every declared member is implemented or absent, and some
    absent member has no default, [verify] raises [InvalidImplementation]
    with the diagnostic for exactly the uncovered names, in declaration
    order, and for nothing else. *)
Theorem verify_reports_uncovered self type_ :
  defaults_wf self →
  (∀ name sig, (name, sig) ∈ _signatures self →
     implemented sig type_ name ∨ lacks type_ name = true) →
  filter (λ n, uncovered self type_ n = true) (keys (_signatures self)) ≠ [] →
  verify self type_
  = Raise (_invalid_implementation self type_
             (filter (λ n, uncovered self type_ n = true)
                     (keys (_signatures self))) [] []).
Proof.
  intros Hwf Hok Hne. unfold verify, _diff_signatures.
  rewrite (diff_loop_clean type_ (_signatures self) [] Hok). simpl.
  destruct (resolve_defaults_total self
              (filter (λ n, lacks type_ n = true) (keys (_signatures self)))
              [] [] Hwf) as [res ->].
  simpl. rewrite filter_uncovered.
  destruct (filter _ (keys (_signatures self))); done.
Qed.

Lemma diff_loop_raise type_ before name sig after f e
    missing mistyped mismatched :
  (∀ n s f', (n, s) ∈ before → static_get_type_attr type_ n = Some f' →
             ∃ i, TypedSignature f' = Ok i) →
  static_get_type_attr type_ name = Some f →
  TypedSignature f = Raise e →
  diff_loop type_ (before ++ (name, sig) :: after)
    missing mistyped mismatched = Raise e.
Proof.
  intros Hbefore Hf Hts. revert missing mistyped mismatched.
  induction before as [|[n0 s0] before IH]; simpl;
    intros missing mistyped mismatched.
  - by rewrite Hf, Hts.
  - assert (∀ n s f', (n, s) ∈ before →
              static_get_type_attr type_ n = Some f' →
              ∃ i, TypedSignature f' = Ok i) as Hrest.
    { intros n s f' Hin. apply (Hbefore n s f').
      by apply list_elem_of_further. }
    destruct (static_get_type_attr type_ n0) as [f0|] eqn:Hf0; [|by apply IH].
    destruct (Hbefore n0 s0 f0) as [i ->]; [apply list_elem_of_here|done|].
    by apply IH.
Qed.

(** X10: a member of the candidate that the signature normaliser rejects
    is not itemised.  The exception raised by the normaliser for the first
    such declared member leaves [verify] as it is, whatever else is wrong
    with the candidate. *)
Theorem normaliser_error_escapes self type_ before name sig after f e :
  _signatures self = before ++ (name, sig) :: after →
  (∀ n s f', (n, s) ∈ before → static_get_type_attr type_ n = Some f' →
             ∃ i, TypedSignature f' = Ok i) →
  static_get_type_attr type_ name = Some f →
  TypedSignature f = Raise e →
  verify self type_ = Raise e.
Proof.
  intros Hsigs Hbefore Hf Hts. unfold verify, _diff_signatures.
  rewrite Hsigs.
  by rewrite (diff_loop_raise type_ before name sig after f e [] [] []).
Qed.
End verdict_facts.

(** ** Class creation under several interfaces *)

Section class_facts.
Context `{R : Runtime}.
Local Open Scope list_scope.

Lemma record_defaults_nil iface acc : record_defaults iface [] acc = acc.
Proof. done. Qed.

















End class_facts.

(** ** The memo table of [implements] *)

Section memo_facts.
Context `{R : Runtime}.
Local Open Scope list_scope.

Lemma checked_nonempty args fs ifaces :
  args ≠ [] → frozenset args = Ok fs →
  check_interfaces (elems fs) = Ok ifaces → ifaces ≠ [].
Proof.
  intros Hne Hfs Hc ->. apply check_interfaces_Ok in Hc. simpl in Hc.
  destruct args as [|a args]; [done|].
  destruct (frozenset_dom _ _ _ Hfs (list_elem_of_here a args))
    as (k & _ & [o Ho]%elem_of_dom).
  assert (o ∈ elems fs) as Hin by (apply elem_of_elems; eauto).
  rewrite Hc in Hin. by apply elem_of_nil in Hin.
Qed.

Lemma checked_keys args fs ifaces :
  frozenset args = Ok fs → check_interfaces (elems fs) = Ok ifaces →
  iface_keys ifaces = dom fs.
Proof.
  intros Hfs Hc. apply check_interfaces_Ok in Hc.
  apply set_eq. intros k. unfold iface_keys.
  rewrite elem_of_list_to_set, list_elem_of_fmap, elem_of_dom. split.
  - intros (i & -> & Hi).
    assert (OInterface i ∈ elems fs) as Hin.
    { rewrite Hc. by apply list_elem_of_fmap_2. }
    apply elem_of_elems in Hin as [k Hk].
    destruct (frozenset_lookup _ _ _ _ Hfs Hk) as [Hh _].
    simpl in Hh. injection Hh as <-. eauto.
  - intros [o Ho].
    assert (o ∈ elems fs) as Hin by (apply elem_of_elems; eauto).
    rewrite Hc in Hin. apply list_elem_of_fmap in Hin as (i & -> & Hi).
    destruct (frozenset_lookup _ _ _ _ Hfs Ho) as [Hh _].
    simpl in Hh. injection Hh as <-. eauto.
Qed.

(** The first request for a set of interfaces. *)
Lemma implements_miss args s fs ifaces :
  args ≠ [] → frozenset args = Ok fs → _memo s !! dom fs = None →
  check_interfaces (elems fs) = Ok ifaces →
  ∃ t,
    implements args s
    = (Ok t, {| next_id := Pos.succ (next_id s);
                _memo := <[dom fs := t]> (_memo s) |}) ∧
    ty_id t = next_id s ∧ ty_implements_meta t = true ∧
    ty_ancestors t = [object_] ∧ ty_interfaces t = Some ifaces ∧
    ty_name t
    = ("Implements" ++ join "_" (i_name <$> sorted_by i_name ifaces))%string.
Proof.
  intros Hne Hfs Hmiss Hc.
  pose proof (checked_nonempty args fs ifaces Hne Hfs Hc) as Hnil.
  unfold implements. destruct args as [|a args]; [done|].
  simpl is_nil. cbv iota. rewrite Hfs, Hmiss, Hc.
  unfold ImplementsMeta_call, ImplementsMeta_new.
  destruct ifaces as [|i ifaces]; [done|]. simpl.
  eexists. split; [reflexivity|]. done.
Qed.

(** X16: a call of [implements] that raises raises a [TypeError] and
    changes nothing: no type is created and the table is as before. *)
Theorem implements_failure_is_clean args s e s' :
  implements args s = (Raise e, s') →
  s' = s ∧ ∃ msg, e = TypeError msg.
Proof.
  destruct (implements_cases args s)
    as [[_ ->]|[(_ & e' & Hfs & ->)|[(_ & fs & t' & _ & _ & ->)
       |[(_ & fs & e' & _ & _ & Hc & ->)
       |(Hne & fs & ifaces & r & s1 & Hfs & _ & Hc & _ & Hr)]]]].
  - intros [= <- <-]. eauto.
  - intros [= <- <-]. split; [done|]. by apply frozenset_raise in Hfs.
  - done.
  - intros [= <- <-]. split; [done|]. by apply check_interfaces_raise in Hc.
  - destruct Hr as [(t & _ & ->)|(e' & _ & -> & _)]; [done|].
    by destruct (checked_nonempty args fs [] Hne Hfs Hc).
Qed.

Lemma later_trans s1 s2 s3 : later s1 s2 → later s2 s3 → later s1 s3.
Proof.
  intros H12. induction 1; [done|..].
  - by apply later_implements.
  - by apply later_interface.
  - by apply later_class.
Qed.

Lemma memo_wf_alloc s memo :
  memo = _memo s → memo_wf s →
  memo_wf {| next_id := Pos.succ (next_id s); _memo := memo |}.
Proof.
  intros -> [Hwf Hinj]. split; [|done]. simpl. intros ks t Hks.
  destruct (Hwf ks t Hks) as (? & ? & ? & ?). split_and!; [done..|lia|done].
Qed.

Lemma implements_memo_wf args s : memo_wf s → memo_wf (implements args s).2.
Proof.
  intros Hwf.
  destruct (implements_cases args s)
    as [[_ ->]|[(_ & e & _ & ->)|[(_ & fs & t' & _ & _ & ->)
       |[(_ & fs & e & _ & _ & _ & ->)
       |(Hne & fs & ifaces & r & s' & Hfs & Hmiss & Hc & _ & _)]]]];
    try done.
  destruct (implements_miss args s fs ifaces Hne Hfs Hmiss Hc)
    as (t & -> & Hid & Hmeta & Hanc & Hifaces & _).
  destruct Hwf as [Hwf Hinj]. simpl. split; simpl.
  - intros ks t0. destruct (decide (dom fs = ks)) as [<-|Hneq].
    + rewrite lookup_insert_eq. intros [= <-]. split_and!; [done..|lia|].
      exists ifaces. split_and!; [done| |by eapply checked_keys].
      by eapply checked_nonempty.
    + rewrite lookup_insert_ne by done. intros Hks.
      destruct (Hwf ks t0 Hks) as (? & ? & ? & ?).
      split_and!; [done..|lia|done].
  - intros ks1 ks2 t1 t2.
    destruct (decide (dom fs = ks1)) as [<-|Hn1];
      destruct (decide (dom fs = ks2)) as [<-|Hn2]; [done|..].
    + rewrite lookup_insert_eq, lookup_insert_ne by done.
      intros [= <-] H2 Heq. destruct (Hwf _ _ H2) as (_ & _ & Hlt & _). lia.
    + rewrite lookup_insert_eq, lookup_insert_ne by done.
      intros H1 [= <-] Heq. destruct (Hwf _ _ H1) as (_ & _ & Hlt & _). lia.
    + rewrite !lookup_insert_ne by done. apply Hinj.
Qed.

Lemma later_memo_wf s s' : memo_wf s → later s s' → memo_wf s'.
Proof.
  intros Hwf. induction 1 as [|args s' _ IH|name bases clsdict s' _ IH
                             |name ancestors clsdict s' _ IH].
  - done.
  - by apply implements_memo_wf.
  - unfold InterfaceMeta_new.
    destruct (collect_fields name _ [] []) as [[??]|]; [|done].
    simpl. by apply memo_wf_alloc.
  - simpl. by apply memo_wf_alloc.
Qed.

Lemma initial_memo_wf : memo_wf initial_state.
Proof. split; simpl; intros *; by rewrite lookup_empty. Qed.

(** X17: the type that [implements] returns is an enforcement base for
    exactly the requested set: it was made by [ImplementsMeta] directly
    under [object], and the interfaces it stores are those of the
    argument list, each once. *)
Theorem implements_result_carries_request args s t s' :
  reachable s →
  implements args s = (Ok t, s') →
  ty_implements_meta t = true ∧ ty_ancestors t = [object_] ∧
  ∃ ifaces,
    ty_interfaces t = Some ifaces ∧ ifaces ≠ [] ∧
    ∀ k, k ∈ iface_keys ifaces ↔ ∃ o, o ∈ args ∧ hash_key o = Ok k.
Proof.
  intros Hreach Hrun.
  assert (memo_wf s') as [Hwf _].
  { replace s' with (implements args s).2 by (by rewrite Hrun).
    apply implements_memo_wf, (later_memo_wf initial_state);
      [apply initial_memo_wf|done]. }
  apply implements_records in Hrun as (_ & fs & Hfs & Hm).
  destruct (Hwf _ _ Hm) as (Hmeta & Hanc & _ & ifaces & Hifaces & Hne & Hkeys).
  split_and!; [done..|]. exists ifaces. split_and!; [done..|].
  intros k. rewrite Hkeys, elem_of_dom. split.
  - intros [o Ho]. exists o.
    destruct (frozenset_lookup _ _ _ _ Hfs Ho). done.
  - intros (o & Hin & Hk).
    destruct (frozenset_dom _ _ _ Hfs Hin) as (k' & Hk' & Hdom).
    apply elem_of_dom. congruence.
Qed.

(** X18: different sets get different types.  Two calls of [implements]
    that return the same object (the same identity) were made for
    argument lists with the same elements. *)
Theorem implements_same_type_same_set l1 l2 s s1 s2 s3 t1 t2 :
  reachable s →
  implements l1 s = (Ok t1, s1) →
  later s1 s2 →
  implements l2 s2 = (Ok t2, s3) →
  ty_id t1 = ty_id t2 →
  ∀ k, (∃ o, o ∈ l1 ∧ hash_key o = Ok k) ↔ (∃ o, o ∈ l2 ∧ hash_key o = Ok k).
Proof.
  intros Hreach Hrun1 Hlater Hrun2 Hid.
  assert (later s1 s3) as Hlater3.
  { replace s3 with (implements l2 s2).2 by (by rewrite Hrun2).
    by apply later_implements. }
  assert (memo_wf s3) as [_ Hinj].
  { apply (later_memo_wf s1); [|done].
    replace s1 with (implements l1 s).2 by (by rewrite Hrun1).
    apply implements_memo_wf, (later_memo_wf initial_state);
      [apply initial_memo_wf|done]. }
  apply implements_records in Hrun1 as (_ & fs1 & Hfs1 & Hm1).
  apply implements_records in Hrun2 as (_ & fs2 & Hfs2 & Hm2).
  apply (later_memo_mono s1 s3) in Hm1; [|done].
  pose proof (Hinj _ _ _ _ Hm1 Hm2 Hid) as Hdom.
  assert (∀ l fs k, frozenset l = Ok fs →
            (∃ o, o ∈ l ∧ hash_key o = Ok k) ↔ k ∈ dom fs) as Hchar.
  { intros l fs k Hfs. rewrite elem_of_dom. split.
    - intros (o & Hin & Hk).
      destruct (frozenset_dom _ _ _ Hfs Hin) as (k' & Hk' & Hd).
      apply elem_of_dom. congruence.
    - intros [o Ho]. exists o.
      destruct (frozenset_lookup _ _ _ _ Hfs Ho). done. }
  intros k. rewrite (Hchar l1 fs1 k Hfs1), (Hchar l2 fs2 k Hfs2).
  by rewrite Hdom.
Qed.
End memo_facts.

(** ** Conflicting defaults on a base for two interfaces *)

Section pair_facts.
Context `{R : Runtime}.
Local Open Scope list_scope.





Lemma pair_keys a b :
  iface_keys [a; b] = ({[inl (i_id a); inl (i_id b)]} : gset objkey).
Proof. unfold iface_keys. simpl. set_solver. Qed.


(** [made_for] holds before the first request for a pair, the first
    request establishes it for the pair it is given, and from then on it
    stays: the entry is never replaced. *)
Lemma made_for_fresh ifaces s :
  _memo s !! iface_keys ifaces = None → made_for s ifaces.
Proof. intros Hm t stored Ht. congruence. Qed.

Lemma made_for_served a b s base s1 :
  i_id a ≠ i_id b →
  _memo s !! iface_keys [a; b] = None →
  implements [OInterface a; OInterface b] s = (Ok base, s1) →
  _memo s1 !! iface_keys [a; b] = Some base ∧ made_for s1 [a; b].
Proof.
  intros Hne Hmiss Hrun. rewrite pair_keys in Hmiss.
  destruct (implements_fresh_pair a b s Hne Hmiss)
    as (base' & s1' & ifaces & Hrun' & Horder & Hifaces & _).
  rewrite Hrun in Hrun'. injection Hrun' as <- <-.
  apply implements_records in Hrun as (_ & fs & Hfs & Hm).
  simpl in Hfs. injection Hfs as <-.
  rewrite !dom_insert_L, dom_empty_L in Hm.
  replace ({[inl (i_id a)]} ∪ ({[inl (i_id b)]} ∪ ∅) : gset objkey)
    with (iface_keys [a; b]) in Hm by (rewrite pair_keys; set_solver).
  split; [done|]. intros t stored Ht Hst j Hj.
  rewrite Hm in Ht. injection Ht as <-.
  rewrite Hifaces in Hst. injection Hst as <-.
  destruct Horder as [-> | ->]; [done|].
  apply elem_of_cons in Hj as [->|Hj].
  - apply list_elem_of_further, list_elem_of_here.
  - apply list_elem_of_singleton in Hj as ->. apply list_elem_of_here.
Qed.

Lemma made_for_later ifaces s s' t :
  _memo s !! iface_keys ifaces = Some t → made_for s ifaces → later s s' →
  made_for s' ifaces.
Proof.
  intros Hm Hmade Hlater t' stored Hm'.
  rewrite (later_memo_mono s s' _ t Hlater Hm) in Hm'. injection Hm' as <-.
  by apply Hmade.
Qed.

End pair_facts.

(** ** Helpers, inherited interfaces and the text of the diagnostic *)

Section text_facts.
Context `{R : Runtime}.
Local Open Scope list_scope.

(** X19: on a dictionary, [valfilter] keeps exactly the entries whose
    value satisfies the predicate, in their order. *)
Theorem valfilter_filter {V} (f : V → bool) (d : dict V) :
  NoDup (keys d) → valfilter f d = filter (λ kv, f kv.2 = true) d.
Proof. intros Hnd. unfold valfilter. by rewrite dict_comp_filter. Qed.

Lemma concat_interfaces_spec types l :
  concat_interfaces types = Ok l →
  ∀ i, i ∈ l ↔ ∃ t ifaces,
    t ∈ types ∧ getattr_interfaces t = Ok ifaces ∧ i ∈ ifaces.
Proof.
  revert l. induction types as [|t types IH]; simpl; intros l.
  - intros [= <-] i. split; [by intros ?%elem_of_nil|].
    intros (? & ? & ?%elem_of_nil & _). done.
  - destruct (getattr_interfaces t) as [own|] eqn:Hown; simpl; [|done].
    destruct (concat_interfaces types) as [others|]; simpl; [|done].
    intros [= <-] i. rewrite elem_of_app, (IH others eq_refl). split.
    + intros [Hi|(t' & ifaces & Ht' & Hg & Hi)].
      * exists t, own. split_and!; [apply list_elem_of_here|done..].
      * exists t', ifaces. split_and!; [by apply list_elem_of_further|done..].
    + intros (t' & ifaces & [->|Ht']%elem_of_cons & Hg & Hi).
      * left. congruence.
      * right. eauto.
Qed.

(** X20: the interfaces a class is checked against are its own (as
    attribute lookup finds them) together with those of every class of
    its ancestry chain that [ImplementsMeta] made, and no others: an
    interface set is inherited through any number of subclasses. *)
Theorem inherited_interfaces_collected self l :
  _interfaces_with_duplicates self = Ok l →
  ∀ i, i ∈ l ↔ ∃ t ifaces,
    t ∈ mro self ∧ (t = self ∨ ty_implements_meta t = true) ∧
    getattr_interfaces t = Ok ifaces ∧ i ∈ ifaces.
Proof.
  unfold _interfaces_with_duplicates.
  destruct (getattr_interfaces self) as [own|] eqn:Hown; simpl; [|done].
  destruct (concat_interfaces _) as [inherited|] eqn:Hinh; simpl; [|done].
  intros [= <-] i. rewrite elem_of_app.
  rewrite (concat_interfaces_spec _ _ Hinh i). split.
  - intros [Hi|(t & ifaces & [Hmeta Ht]%list_elem_of_filter & Hg & Hi)].
    + exists self, own. split_and!; [apply list_elem_of_here|by left|done..].
    + exists t, ifaces. split_and!; [done|by right|done..].
  - intros (t & ifaces & Ht & [->|Hmeta] & Hg & Hi).
    + left. congruence.
    + right. exists t, ifaces. split_and!; [|done..].
      by apply list_elem_of_filter.
Qed.

Lemma insert_sorted_perm {A} (key : A → string) x l :
  insert_sorted key x l ≡ₚ x :: l.
Proof.
  induction l as [|y l IH]; simpl; [done|].
  destruct (String.leb (key x) (key y)); [done|].
  rewrite IH. apply Permutation_swap.
Qed.

Lemma sorted_by_perm {A} (key : A → string) l : sorted_by key l ≡ₚ l.
Proof.
  unfold sorted_by. induction l as [|x l IH]; simpl; [done|].
  by rewrite insert_sorted_perm, IH.
Qed.

Lemma insert_sorted_Sorted x l :
  Sorted String.le l → Sorted String.le (insert_sorted id x l).
Proof.
  induction l as [|y l IH]; simpl; intros Hs.
  - by repeat constructor.
  - destruct (String.leb x y) eqn:Hxy.
    + constructor; [done|]. constructor. unfold String.le. by rewrite Hxy.
    + apply Sorted_inv in Hs as [Hs Hhd].
      constructor; [by apply IH|].
      assert (String.le y x) as Hyx.
      { unfold String.le. destruct (String.leb_total x y) as [H|H];
          [congruence|by rewrite H]. }
      destruct l as [|z l]; simpl.
      * by constructor.
      * destruct (String.leb x z); constructor; [done|].
        by apply HdRel_inv in Hhd.
Qed.

Lemma sorted_Sorted l : Sorted String.le (sorted l).
Proof.
  unfold sorted, sorted_by. induction l as [|x l IH]; simpl.
  - constructor.
  - by apply insert_sorted_Sorted.
Qed.

Lemma sorted_Permutation l1 l2 : l1 ≡ₚ l2 → sorted l1 = sorted l2.
Proof.
  intros Hperm. apply (Sorted_unique String.le); [apply sorted_Sorted..|].
  unfold sorted. by rewrite !sorted_by_perm.
Qed.

Lemma is_nil_Permutation {A} (l1 l2 : list A) :
  l1 ≡ₚ l2 → is_nil l1 = is_nil l2.
Proof.
  intros Hperm. destruct l1, l2; try done.
  - by apply Permutation_nil_cons in Hperm.
  - symmetry in Hperm. by apply Permutation_nil_cons in Hperm.
Qed.

(** X21: the diagnostic of [verify] lists its items sorted, so its text
    depends on which names are missing, mistyped and mismatched and not on
    the order in which the diff found them. *)
Theorem diagnostic_order_independent self t missing missing'
    mistyped mistyped' mismatched mismatched' :
  missing ≡ₚ missing' → mistyped ≡ₚ mistyped' →
  mismatched ≡ₚ mismatched' →
  _invalid_implementation self t missing mistyped mismatched
  = _invalid_implementation self t missing' mistyped' mismatched'.
Proof.
  intros H1 H2 H3. unfold _invalid_implementation.
  rewrite (is_nil_Permutation _ _ H1), (is_nil_Permutation _ _ H2),
    (is_nil_Permutation _ _ H3).
  assert (_format_missing_methods self missing
          = _format_missing_methods self missing') as ->.
  { unfold _format_missing_methods. f_equal. apply sorted_Permutation.
    by apply fmap_Permutation. }
  assert (_format_mismatched_types self mistyped
          = _format_mismatched_types self mistyped') as ->.
  { unfold _format_mismatched_types. f_equal. apply sorted_Permutation.
    by apply fmap_Permutation. }
  assert (_format_mismatched_methods self mismatched
          = _format_mismatched_methods self mismatched') as ->.
  { unfold _format_mismatched_methods. f_equal. apply sorted_Permutation.
    by apply fmap_Permutation. }
  done.
Qed.
End text_facts.

(** ** The further properties on the sample runtime *)

Section more_demo_facts.
Import Demo.
Local Open Scope list_scope.

Lemma declared_reachable : reachable (R := runtime) declared.
Proof.
  change declared
    with (declare "I2" [("m", shared_default)]
            (declare "I1" [("m", shared_default)] initial_state).2).2.
  unfold declare. apply later_interface, later_interface, later_refl.
Qed.

Lemma interface_definition_sound_witness :
  i_name iface1 = "I1" ∧ i_id iface1 = next_id initial_state.
Proof.
  destruct (interface_definition_sound (R := runtime) "I1" []
              [("m", shared_default)] initial_state iface1
              {| next_id := 3; _memo := ∅ |}) as (Hname & Hid & _).
  - vm_compute. reflexivity.
  - split; [exact Hname|exact Hid].
Defined.


Lemma diff_missing_exact_witness :
  ["name"] = filter (λ n, lacks disc n = true) (keys (_signatures shape)).
Proof.
  apply (diff_missing_exact (R := runtime) shape disc ["name"] [] []).
  reflexivity.
Defined.

Lemma mistyped_present_wrong_kind_witness :
  ("area" ∉ ([] : list string)) ∧
  ∃ iface_sig f impl_sig,
    (("area", iface_sig) : string * typed_signature) ∈ _signatures shape ∧
    static_get_type_attr square "area" = Some f ∧
    TypedSignature f = Ok impl_sig ∧
    dict_get "area" [("area", KStaticmethod)] = Some impl_sig.1 ∧
    issubclass impl_sig.1 iface_sig.1 = false.
Proof.
  apply (mistyped_present_wrong_kind (R := runtime) shape square []
           [("area", KStaticmethod)] [("area", (KStaticmethod, ["x"; "y"]))]).
  - reflexivity.
  - apply list_elem_of_here.
Defined.

Lemma diff_records_violations_witness :
  (issubclass KStaticmethod KFunction = false →
   dict_get "area" [("area", KStaticmethod)] = Some KStaticmethod) ∧
  (compatible ["x"; "y"] ["self"] = false →
   dict_get "area" [("area", (KStaticmethod, ["x"; "y"]))]
   = Some (KStaticmethod, ["x"; "y"])).
Proof.
  apply (diff_records_violations (R := runtime) shape square []
           [("area", KStaticmethod)] [("area", (KStaticmethod, ["x"; "y"]))]
           "area" (KFunction, ["self"]) (VStaticmethod ["x"; "y"])
           (KStaticmethod, ["x"; "y"])).
  - reflexivity.
  - apply list_elem_of_here.
  - reflexivity.
  - reflexivity.
Defined.

Lemma verify_sound_witness :
  member_ok shape disc "name" (KFunction, ["self"]).
Proof.
  apply (verify_sound (R := runtime) shape disc
           [("name", VFunction ["self"])]).
  - reflexivity.
  - apply list_elem_of_further, list_elem_of_here.
Defined.

Lemma verify_resolved_exact_witness :
  "name" ∈ keys [("name", VFunction ["self"])] ↔
  "name" ∈ keys (_signatures shape) ∧ lacks disc "name" = true.
Proof.
  destruct (verify_resolved_exact (R := runtime) shape disc
              [("name", VFunction ["self"])]) as [Hkeys _].
  - reflexivity.
  - exact (Hkeys "name").
Defined.

Lemma verify_reports_uncovered_witness :
  verify shape blob
  = Raise (_invalid_implementation shape blob
             (filter (λ n, uncovered shape blob n = true)
                     (keys (_signatures shape))) [] []).
Proof.
  apply (verify_reports_uncovered (R := runtime) shape blob).
  - intros k d. simpl. destruct (decide (k = "name")); [|done].
    intros [= <-]. eexists. reflexivity.
  - intros name sig _. right.
    unfold lacks, static_get_type_attr. reflexivity.
  - vm_compute. discriminate.
Defined.

Lemma normaliser_error_escapes_witness :
  verify shape broken
  = Raise (TypeError "Can't extract function from object of type int").
Proof.
  apply (normaliser_error_escapes (R := runtime) shape broken []
           "area" (KFunction, ["self"]) [("name", (KFunction, ["self"]))]
           (VInt 3)).
  - reflexivity.
  - intros n s f' Hin. by apply elem_of_nil in Hin.
  - reflexivity.
  - reflexivity.
Defined.






Lemma implements_failure_is_clean_witness :
  declared = declared ∧
  ∃ msg, TypeError "implements() expected an Interface, but got <class 'int'>."
         = TypeError msg.
Proof.
  apply (implements_failure_is_clean (R := runtime)
           [OInterface iface1; OClass 9 "<class 'int'>"] declared).
  vm_compute. reflexivity.
Defined.

Lemma implements_result_carries_request_witness :
  ty_implements_meta base13 = true ∧ ty_ancestors base13 = [object_] ∧
  ∃ ifaces, ty_interfaces base13 = Some ifaces ∧ ifaces ≠ [].
Proof.
  destruct (implements_result_carries_request (R := runtime)
              [OInterface iface1; OInterface iface3] declared base13 state13)
    as (Hmeta & Hanc & ifaces & Hifaces & Hne & _).
  - apply declared_reachable.
  - vm_compute. reflexivity.
  - split_and!; [exact Hmeta|exact Hanc|]. exists ifaces.
    split; [exact Hifaces|exact Hne].
Defined.

Lemma implements_same_type_same_set_witness :
  (∃ o, o ∈ [OInterface iface1; OInterface iface3] ∧ hash_key o = Ok (inl 2%positive))
  ↔ (∃ o, o ∈ [OInterface iface3; OInterface iface1] ∧ hash_key o = Ok (inl 2%positive)).
Proof.
  apply (implements_same_type_same_set (R := runtime)
           [OInterface iface1; OInterface iface3]
           [OInterface iface3; OInterface iface1]
           declared state13 state13 state13 base13 base13).
  - apply declared_reachable.
  - vm_compute. reflexivity.
  - apply later_refl.
  - vm_compute. reflexivity.
  - reflexivity.
Defined.

Lemma valfilter_filter_witness :
  valfilter (λ l : list nat, bool_decide (1 < length l))
    [("a", [1]); ("b", [1; 2])]
  = filter (λ kv, bool_decide (1 < length kv.2) = true)
      [("a", [1]); ("b", [1; 2])].
Proof.
  apply (valfilter_filter (λ l : list nat, bool_decide (1 < length l))).
  refine (bool_decide_unpack (NoDup (keys [("a", [1]); ("b", [1; 2])])) _).
  vm_compute. exact I.
Defined.

Lemma inherited_interfaces_collected_witness :
  iface1 ∈ [iface3; iface1; iface3; iface1; iface3; iface1] ↔
  ∃ t ifaces,
    t ∈ mro (type_new 5 "C" (mro base13) []) ∧
    (t = type_new 5 "C" (mro base13) [] ∨ ty_implements_meta t = true) ∧
    getattr_interfaces t = Ok ifaces ∧ iface1 ∈ ifaces.
Proof.
  apply (inherited_interfaces_collected (R := runtime)
           (type_new 5 "C" (mro base13) [])).
  vm_compute. reflexivity.
Defined.

Lemma diagnostic_order_independent_witness :
  _invalid_implementation shape blob ["name"; "area"] [] []
  = _invalid_implementation shape blob ["area"; "name"] [] [].
Proof.
  apply (diagnostic_order_independent (R := runtime) shape blob).
  - apply Permutation_swap.
  - reflexivity.
  - reflexivity.
Defined.



Lemma unparsable_member_rejected_witness :
  ∃ before k' v' e' after,
    bad_body = before ++ (k', v') :: after ∧
    is_interface_field_name k' = true ∧
    (∀ k0 v0, (k0, v0) ∈ before → is_interface_field_name k0 = true →
              ∃ sig, TypedSignature v0 = Ok sig) ∧
    TypedSignature v' = Raise e' ∧
    InterfaceMeta_new "Bad" [] bad_body initial_state
    = (Raise (if is_TypeError e'
              then TypeError (parse_errmsg "Bad" k' (type_name v'))
              else e'), initial_state).
Proof.
  apply (unparsable_member_rejected (R := runtime) "Bad" [] bad_body
           initial_state
           "n" (VInt 3)
           (TypeError "Can't extract function from object of type int")).
  - refine (bool_decide_unpack (NoDup (keys bad_body)) _).
    vm_compute. exact I.
  - do 2 apply list_elem_of_further. apply list_elem_of_here.
  - reflexivity.
  - reflexivity.
Defined.

(** C8, refuted as stated: the member [smallest] of [Ordered] is outside
    the whitelist and the normaliser cannot turn its value, the builtin
    [min], into a call shape; the declaration fails, but with the
    [ValueError] of the normaliser, which is no [TypeError] and names
    neither the interface nor the member. *)
Lemma builtin_member_escapes :
  is_interface_field_name "smallest" = true ∧
  TypedSignature (VBuiltin "min")
  = Raise (ValueError "no signature found for builtin <built-in function min>")
  ∧ (InterfaceMeta_new "Ordered" [] ordered_body initial_state).1
    = Raise (ValueError
               "no signature found for builtin <built-in function min>")
  ∧ is_TypeError
      (ValueError "no signature found for builtin <built-in function min>")
    = false.
Proof. split_and!; vm_compute; reflexivity. Qed.

Lemma interface_not_instantiable_witness :
  Interface_call call_new shape [] [VInt 3] []
  = Raise (TypeError "Can't instantiate interface Shape").
Proof.
  apply (interface_not_instantiable (R := runtime) call_new "Shape" []
           shape_body initial_state shape {| next_id := 3; _memo := ∅ |}
           [] [VInt 3] []).
  - vm_compute. reflexivity.
  - vm_compute. intros Hin. apply elem_of_cons in Hin as [?|Hin]; [done|].
    apply elem_of_cons in Hin as [?|Hin]; [done|].
    apply list_elem_of_singleton in Hin. done.
  - intros ns Hns. by apply elem_of_nil in Hns.
Defined.

(** C6, refuted as stated: the body of the interface [Point] defines
    [__new__], which [InterfaceMeta.__new__] accepts as a member, and
    calling [Point] raises nothing: it returns an instance of [Point]. *)
Lemma own_new_instantiates :
  ∃ cls s',
    InterfaceMeta_new "Point" [] point_body initial_state = (Ok cls, s') ∧
    keys (_signatures cls) = ["__new__"] ∧
    Interface_call call_new cls [] [] [] = Ok (VInstance "Point").
Proof. eexists _, _. split_and!; vm_compute; reflexivity. Qed.
End more_demo_facts.
